(** * Model-complexity sweep and OOB-error tracker: a shallow embedding

    The two notebooks of the repository are thin orchestration around
    scikit-learn, numpy, [time.time()] and plotly.  The code of the notebooks
    is embedded here as monadic programs; everything the notebooks call but do
    not define (estimator construction, [fit], [predict], metric functions,
    the wall clock) is an interface whose behaviour is universally
    quantified.

    Conventions.
    - Python [int] is [Z]; Python [float] is idealised as a rational [Q]
      (no rounding): the statements below are about which readings and
      metric values are combined, not about IEEE rounding.
    - A Python exception is a value of [Exn]; a computation either returns or
      raises.
    - The interpreter state that the libraries own (attributes of estimator
      objects, numpy's global random generator seeded by
      [np.random.seed(0)]) is one abstract [LibState], threaded through
      every library call.  Arrays are passed to the libraries as values.
    - Every library call, clock reading and [print] of a run is recorded in a
      ghost trace of [Event]s, so that "which calls were made, in which
      order, and which of them raised" can be stated. *)

From stdpp Require Import base strings list gmap.
From Stdlib Require Import ZArith QArith Qround Lia.

Set Default Proof Using "Type".
Local Open Scope Z_scope.

(** ** Python values and exceptions *)

(** Hyper-parameter values as they occur in the notebooks' dictionaries. *)
Inductive PyVal : Type :=
| VFloat (q : Q)
| VInt (z : Z)
| VStr (s : string)
| VBool (b : bool).

(** A keyword-argument dictionary such as [conf['tuned_params']]. *)
Abbreviation Params := (gmap string PyVal).

Inductive Exn : Type :=
| ZeroDivisionError
| UnboundLocalError
| KeyError (key : string)
| LibraryError (msg : string).

(** ** Computations: state, exceptions and a trace *)

Section Monad.
Context {St Ev : Type}.

(** What a computation leaves behind: its result (a value or the exception
    that ended it), the state at that point and the events it emitted. *)
Record Outcome (A : Type) : Type := {
  res : Exn + A;
  final : St;
  emitted : list Ev
}.
Arguments res {A} _.
Arguments final {A} _.
Arguments emitted {A} _.

Definition M (A : Type) : Type := St -> Outcome A.

Definition ret {A} (a : A) : M A :=
  fun st => {| res := inr a; final := st; emitted := [] |}.

Definition raise {A} (e : Exn) : M A :=
  fun st => {| res := inl e; final := st; emitted := [] |}.

Definition bind {A B} (m : M A) (f : A -> M B) : M B :=
  fun st =>
    let o := m st in
    match res o with
    | inl e => {| res := inl e; final := final o; emitted := emitted o |}
    | inr a =>
        let o' := f a (final o) in
        {| res := res o'; final := final o';
           emitted := emitted o ++ emitted o' |}
    end.

(** ** Vocabulary for statements about computations *)

(** A relation between the state before and the state after that every
    step maintains is maintained by the whole computation. *)
Definition maintains {A} (R : St -> St -> Prop) (m : M A) : Prop :=
  forall st, R st (final (m st)).

End Monad.

Arguments Outcome : clear implicits.
Arguments M : clear implicits.
Arguments res {St Ev A} _.
Arguments final {St Ev A} _.
Arguments emitted {St Ev A} _.

Notation "x <- m ;; k" := (bind m (fun x => k))
  (at level 100, m at next level, right associativity).
Notation "m ;;; k" := (bind m (fun _ => k))
  (at level 100, right associativity).

Definition raised_of {A} (r : Exn + A) : option Exn :=
  match r with inl e => Some e | inr _ => None end.

(** ** The library interface *)

(** What the notebook uses of an estimator object: the methods [fit],
    [predict] and [__repr__] (through ["%s" % estimator]). *)
Class Sklearn : Type := {
  LibState : Type;
  Estimator : Type;
  Array : Type;
  est_fit : Estimator -> Array -> Array -> LibState -> (Exn + unit) * LibState;
  est_predict : Estimator -> Array -> LibState -> (Exn + Array) * LibState;
  est_repr : Estimator -> LibState -> (Exn + string) * LibState
}.

Section Sweep.
Context `{Sklearn}.

(** A library call: a partial function on the library state. *)
Definition Lib (A : Type) : Type := LibState -> (Exn + A) * LibState.

(** An estimator class: its [__name__] and its constructor. *)
Record EstimatorClass : Type := {
  cls_name : string;
  cls_init : Params -> Lib Estimator
}.

(** The dictionary returned by [generate_data]. *)
Record Data : Type := {
  X_train : Array;
  X_test : Array;
  y_train : Array;
  y_test : Array
}.

(** One element of [configurations]. *)
Record Conf : Type := {
  estimator : EstimatorClass;
  tuned_params : Params;
  changing_param : string;
  changing_param_values : list PyVal;
  complexity_label : string;
  complexity_computer : Estimator -> Lib Z;
  prediction_performance_computer : Array -> Array -> Lib Q;
  prediction_performance_label : string;
  postfit_hook : Estimator -> Lib unit;
  data : Data;
  n_samples : Z
}.

(** [conf['tuned_params'] = p], the only kind of write the notebook makes. *)
Definition with_tuned_params (p : Params) (c : Conf) : Conf :=
  {| estimator := estimator c;
     tuned_params := p;
     changing_param := changing_param c;
     changing_param_values := changing_param_values c;
     complexity_label := complexity_label c;
     complexity_computer := complexity_computer c;
     prediction_performance_computer := prediction_performance_computer c;
     prediction_performance_label := prediction_performance_label c;
     postfit_hook := postfit_hook c;
     data := data c;
     n_samples := n_samples c |}.

(** ** Events and state *)

Inductive Call : Type :=
| CInit (kwargs : Params)
| CRepr (est : Estimator)
| CFit (est : Estimator) (X y : Array)
| CHook (est : Estimator)
| CComplexity (est : Estimator)
| CPredict (est : Estimator) (X : Array)
| CScore (y_true y_pred : Array).

Inductive Printed : Type :=
| Benchmarking (repr : string)
| Summary (complexity : Z) (label : string) (score elapsed : Q).

Inductive Event : Type :=
| EvCall (c : Call) (raised : option Exn)
| EvTime (t : Q)
| EvPrint (p : Printed).

(** The state a run of [benchmark_influence(conf)] works on: the dictionary
    object [conf] refers to (the caller keeps the same reference, so what the
    function writes to it is what the caller sees afterwards), the library
    state, and the wall clock: [clock k] is what the [k]-th call of
    [time.time()] returns, [ticks] counts the calls made so far. *)
Record State : Type := {
  conf : Conf;
  lib : LibState;
  clock : nat -> Q;
  ticks : nat
}.

Definition SM (A : Type) : Type := M State Event A.

(** [conf[...]]: read the configuration object. *)
Definition rd {A} (f : Conf -> A) : SM A :=
  fun st => {| res := inr (f (conf st)); final := st; emitted := [] |}.

(** [conf['tuned_params'][key] = value]. *)
Definition set_tuned_param (key : string) (value : PyVal) : SM unit :=
  fun st =>
    let c := conf st in
    {| res := inr tt;
       final := {| conf := with_tuned_params (<[key := value]> (tuned_params c)) c;
                   lib := lib st; clock := clock st; ticks := ticks st |};
       emitted := [] |}.

(** A call into the library. *)
Definition call {A} (c : Call) (f : Lib A) : SM A :=
  fun st =>
    let r := f (lib st) in
    {| res := fst r;
       final := {| conf := conf st; lib := snd r;
                   clock := clock st; ticks := ticks st |};
       emitted := [EvCall c (raised_of (fst r))] |}.

(** [time.time()]. *)
Definition time_time : SM Q :=
  fun st =>
    let t := clock st (ticks st) in
    {| res := inr t;
       final := {| conf := conf st; lib := lib st;
                   clock := clock st; ticks := S (ticks st) |};
       emitted := [EvTime t] |}.

Definition print (p : Printed) : SM unit :=
  fun st => {| res := inr tt; final := st; emitted := [EvPrint p] |}.

(** ** [benchmark_influence] *)

(** The local variables of [benchmark_influence].  [y_pred] is bound by the
    inner loop only, hence optional. *)
Record Locals : Type := {
  prediction_times : list Q;
  prediction_powers : list Q;
  complexities : list Z;
  y_pred : option Array
}.

(** [for _ in range(n): y_pred = estimator.predict(conf['data']['X_test'])] *)
Fixpoint predict_loop (est : Estimator) (n : nat) (y_pred : option Array)
  : SM (option Array) :=
  match n with
  | O => ret y_pred
  | S n' =>
      d <- rd data ;;
      y <- call (CPredict est (X_test d)) (est_predict est (X_test d)) ;;
      predict_loop est n' (Some y)
  end.

(** The body of the loop over [conf['changing_param_values']]. *)
Definition iteration (param_value : PyVal) (L : Locals) : SM Locals :=
  key <- rd changing_param ;;
  set_tuned_param key param_value ;;;
  cls <- rd estimator ;;
  kwargs <- rd tuned_params ;;
  est <- call (CInit kwargs) (cls_init cls kwargs) ;;
  r <- call (CRepr est) (est_repr est) ;;
  print (Benchmarking r) ;;;
  d <- rd data ;;
  call (CFit est (X_train d) (y_train d)) (est_fit est (X_train d) (y_train d)) ;;;
  hook <- rd postfit_hook ;;
  call (CHook est) (hook est) ;;;
  cc <- rd complexity_computer ;;
  complexity <- call (CComplexity est) (cc est) ;;
  let cs := complexities L ++ [complexity] in
  start_time <- time_time ;;
  n <- rd n_samples ;;
  yp <- predict_loop est (Z.to_nat n) (y_pred L) ;;
  now <- time_time ;;
  n' <- rd n_samples ;;
  elapsed_time <- (if n' =? 0 then raise ZeroDivisionError
                   else ret ((now - start_time) / inject_Z n')%Q) ;;
  let ts := prediction_times L ++ [elapsed_time] in
  ppc <- rd prediction_performance_computer ;;
  d' <- rd data ;;
  y <- match yp with
       | Some y => ret y
       | None => raise UnboundLocalError
       end ;;
  pred_score <- call (CScore (y_test d') y) (ppc (y_test d') y) ;;
  let ps := prediction_powers L ++ [pred_score] in
  label <- rd prediction_performance_label ;;
  print (Summary complexity label pred_score elapsed_time) ;;;
  ret {| prediction_times := ts; prediction_powers := ps;
         complexities := cs; y_pred := yp |}.

Fixpoint for_each (values : list PyVal) (L : Locals) : SM Locals :=
  match values with
  | [] => ret L
  | param_value :: rest => L' <- iteration param_value L ;; for_each rest L'
  end.

Definition no_locals : Locals :=
  {| prediction_times := []; prediction_powers := [];
     complexities := []; y_pred := None |}.

Definition benchmark_influence : SM (list Q * list Q * list Z) :=
  values <- rd changing_param_values ;;
  L <- for_each values no_locals ;;
  ret (prediction_powers L, prediction_times L, complexities L).

(** ** [plot_influence] *)

(** The plotly objects the function builds, as plain records; a keyword that
    is not passed is [None]. *)
Record Scatter : Type := {
  sc_x : list Z;
  sc_y : list Q;
  sc_name : string;
  sc_mode : string;
  sc_yaxis : option string;
  sc_line_color : string
}.

Record Axis : Type := {
  ax_title : string;
  ax_showgrid : bool;
  ax_titlefont_color : option string;
  ax_overlaying : option string;
  ax_side : option string
}.

Record Layout : Type := {
  lay_title : string;
  lay_xaxis : Axis;
  lay_yaxis : Axis;
  lay_yaxis2 : Axis
}.

Record Figure : Type := {
  fig_data : list Scatter;
  fig_layout : Layout
}.

Definition plot_influence (mse_values prediction_times : list Q)
    (complexities : list Z) : SM Figure :=
  let p1 := {| sc_x := complexities; sc_y := mse_values;
               sc_name := "prediction error"; sc_mode := "lines";
               sc_yaxis := None; sc_line_color := "blue" |} in
  let p2 := {| sc_x := complexities; sc_y := prediction_times;
               sc_name := "latency"; sc_mode := "lines";
               sc_yaxis := Some "y2"; sc_line_color := "red" |} in
  cls <- rd estimator ;;
  complexity_label <- rd complexity_label ;;
  performance_label <- rd prediction_performance_label ;;
  let layout :=
    {| lay_title := "Influence of Model Complexity - " +:+ cls_name cls;
       lay_xaxis := {| ax_title := "Model Complexity (" +:+ complexity_label +:+ ")";
                       ax_showgrid := false;
                       ax_titlefont_color := None;
                       ax_overlaying := None; ax_side := None |};
       lay_yaxis := {| ax_title := performance_label;
                       ax_showgrid := false;
                       ax_titlefont_color := Some "blue";
                       ax_overlaying := None; ax_side := None |};
       lay_yaxis2 := {| ax_title := "Time (s)";
                        ax_showgrid := false;
                        ax_titlefont_color := Some "red";
                        ax_overlaying := Some "y"; ax_side := Some "right" |} |} in
  ret {| fig_data := [p1; p2]; fig_layout := layout |}.

(** ** The main cell: [configurations] and the loop over it *)

(** What the main cell takes from its imports and from [generate_data]. *)
Record Imports : Type := {
  SGDClassifier : EstimatorClass;
  NuSVR : EstimatorClass;
  GradientBoostingRegressor : EstimatorClass;
  hamming_loss : Array -> Array -> Lib Q;
  mean_squared_error : Array -> Array -> Lib Q;
  sparsify : Estimator -> Lib unit;
  coef_toarray : Estimator -> Lib Array;
  np_count_nonzero : Array -> Lib Z;
  len_support_vectors : Estimator -> Lib Z;
  get_n_estimators : Estimator -> Lib Z;
  regression_data : Data;
  classification_data : Data
}.

Definition _count_nonzero_coefficients (I : Imports) (est : Estimator) : Lib Z :=
  fun s =>
    match coef_toarray I est s with
    | (inl e, s') => (inl e, s')
    | (inr a, s') => np_count_nonzero I a s'
    end.

Definition configurations (I : Imports) : list Conf :=
  [ {| estimator := SGDClassifier I;
       tuned_params :=
         <["fit_intercept" := VBool true]>
           (<["loss" := VStr "modified_huber"]>
              (<["alpha" := VFloat (1 # 1000)]>
                 (<["penalty" := VStr "elasticnet"]> ∅)));
       changing_param := "l1_ratio";
       changing_param_values :=
         [VFloat (1 # 4); VFloat (1 # 2); VFloat (3 # 4); VFloat (9 # 10)];
       complexity_label := "non_zero coefficients";
       complexity_computer := _count_nonzero_coefficients I;
       prediction_performance_computer := hamming_loss I;
       prediction_performance_label := "Hamming Loss (Misclassification Ratio)";
       postfit_hook := sparsify I;
       data := classification_data I;
       n_samples := 30 |};
    {| estimator := NuSVR I;
       tuned_params :=
         <["gamma" := VFloat (1 # 32768)]> (<["C" := VFloat 1000]> ∅);
       changing_param := "nu";
       changing_param_values :=
         [VFloat (1 # 10); VFloat (1 # 4); VFloat (1 # 2); VFloat (3 # 4);
          VFloat (9 # 10)];
       complexity_label := "n_support_vectors";
       complexity_computer := len_support_vectors I;
       prediction_performance_computer := mean_squared_error I;
       prediction_performance_label := "MSE";
       postfit_hook := fun _ s => (inr tt, s);
       data := regression_data I;
       n_samples := 30 |};
    {| estimator := GradientBoostingRegressor I;
       tuned_params := <["loss" := VStr "ls"]> ∅;
       changing_param := "n_estimators";
       changing_param_values := [VInt 10; VInt 50; VInt 100; VInt 200; VInt 500];
       complexity_label := "n_trees";
       complexity_computer := get_n_estimators I;
       prediction_performance_computer := mean_squared_error I;
       prediction_performance_label := "MSE";
       postfit_hook := fun _ s => (inr tt, s);
       data := regression_data I;
       n_samples := 30 |} ].

(** The body of [for conf in configurations]. *)
Definition benchmark_and_plot : SM Figure :=
  r <- benchmark_influence ;;
  let '(prediction_performances, prediction_times, complexities) := r in
  plot_influence prediction_performances prediction_times complexities.

(** ** Vocabulary for statements about the sweep *)

(** [c'] is [c] up to the contents of its [tuned_params] dictionary. *)
Definition same_but_tuned (c c' : Conf) : Prop :=
  c' = with_tuned_params (tuned_params c') c.

(** Steps that leave the configuration object alone. *)
Definition keeps_conf {A} (m : SM A) : Prop :=
  maintains (fun s s' => conf s' = conf s) m.

(** Steps that write nothing but the [tuned_params] dictionary. *)
Definition writes_tuned_only {A} (m : SM A) : Prop :=
  maintains (fun s s' => same_but_tuned (conf s) (conf s')) m.

(** The events of one returning pass through the loop body, for the
    configuration [c] as it is once the varying parameter has been set. *)
Definition pass_events (c : Conf) (est : Estimator) (r : string) (t0 t1 : Q)
    (y : Array) (complexity : Z) (score : Q) : list Event :=
  [ EvCall (CInit (tuned_params c)) None;
    EvCall (CRepr est) None;
    EvPrint (Benchmarking r);
    EvCall (CFit est (X_train (data c)) (y_train (data c))) None;
    EvCall (CHook est) None;
    EvCall (CComplexity est) None;
    EvTime t0 ] ++
  replicate (Z.to_nat (n_samples c)) (EvCall (CPredict est (X_test (data c))) None) ++
  [ EvTime t1;
    EvCall (CScore (y_test (data c)) y) None;
    EvPrint (Summary complexity (prediction_performance_label c) score
               ((t1 - t0) / inject_Z (n_samples c))%Q) ].

(** The estimator of a returning pass is built with the varying parameter
    set to the value being processed. *)
Definition built_with (key : string) (v : PyVal) (evs : list Event) : Prop :=
  exists kwargs rest,
    evs = EvCall (CInit kwargs) None :: rest /\ kwargs !! key = Some v.

(** Number of [time.time()] readings in a trace. *)
Fixpoint clock_reads (evs : list Event) : nat :=
  match evs with
  | [] => 0
  | EvTime _ :: evs' => S (clock_reads evs')
  | _ :: evs' => clock_reads evs'
  end.

(** The dictionary [conf['tuned_params']] after a returning loop. *)
Definition tuned_after (key : string) (values : list PyVal) (p : Params) : Params :=
  match last values with
  | Some v => <[key := v]> p
  | None => p
  end.

(** [s] occurs in [t]. *)
Definition occurs_in (s t : string) : Prop :=
  exists pre post, t = pre +:+ s +:+ post.

Definition is_raise (ev : Event) : bool :=
  match ev with
  | EvCall _ (Some _) => true
  | _ => false
  end.

(** No call of the trace raised. *)
Definition quiet (evs : list Event) : Prop :=
  Forall (fun ev => is_raise ev = false) evs.

(** Either no call raised, or exactly one did, it is the last event of the
    run and its exception is the result of the run. *)
Definition fail_fast {A} (o : Outcome State Event A) : Prop :=
  quiet (emitted o) \/
  exists pre k e,
    emitted o = pre ++ [EvCall k (Some e)] /\ quiet pre /\ res o = inl e.

Definition fails_fast {A} (m : SM A) : Prop := forall st, fail_fast (m st).

Definition is_fit_or_predict (k : Call) : bool :=
  match k with
  | CFit _ _ _ | CPredict _ _ => true
  | _ => false
  end.

(** The two states hold the same configuration and the same library state
    (which includes numpy's random generator as the seed left it); the
    clocks are unrelated. *)
Definition same_world (s1 s2 : State) : Prop :=
  conf s1 = conf s2 /\ lib s1 = lib s2.

Definition agree {A} (R : A -> A -> Prop) (o1 o2 : Outcome State Event A) : Prop :=
  same_world (final o1) (final o2) /\
  match res o1, res o2 with
  | inl e1, inl e2 => e1 = e2
  | inr a1, inr a2 => R a1 a2
  | _, _ => False
  end.

Definition clock_blind {A} (R : A -> A -> Prop) (m1 m2 : SM A) : Prop :=
  forall s1 s2, same_world s1 s2 -> agree R (m1 s1) (m2 s2).

(** Local variables of two runs: everything but the latencies coincides. *)
Definition same_but_times (L1 L2 : Locals) : Prop :=
  prediction_powers L1 = prediction_powers L2 /\
  complexities L1 = complexities L2 /\
  y_pred L1 = y_pred L2.

Definition never_raises {A} (f : Lib A) : Prop :=
  forall s, exists a s', f s = (inr a, s').

(** None of the library functions a configuration uses raises. *)
Definition library_total (c : Conf) : Prop :=
  (forall kwargs, never_raises (cls_init (estimator c) kwargs)) /\
  (forall est, never_raises (est_repr est)) /\
  (forall est X y, never_raises (est_fit est X y)) /\
  (forall est, never_raises (postfit_hook c est)) /\
  (forall est, never_raises (complexity_computer c est)) /\
  (forall est X, never_raises (est_predict est X)) /\
  (forall y y', never_raises (prediction_performance_computer c y y')).

(** [m] returns from every state whose configuration is [c] up to
    [tuned_params], and ends in such a state. *)
Definition returns_on {A} (c : Conf) (P : A -> Prop) (m : SM A) : Prop :=
  forall s, same_but_tuned c (conf s) ->
    exists a, res (m s) = inr a /\ P a /\ same_but_tuned c (conf (final (m s))).

(** Every exception of [m] is the one raised by the library call that is
    the last event of its trace; [m] ends in a state whose configuration is
    [c] up to [tuned_params], when started in one, and its values satisfy
    [P]. *)
Definition library_only {A} (c : Conf) (P : A -> Prop) (m : SM A) : Prop :=
  forall s, same_but_tuned c (conf s) ->
    same_but_tuned c (conf (final (m s))) /\
    match res (m s) with
    | inr a => P a
    | inl e => exists pre k, emitted (m s) = pre ++ [EvCall k (Some e)]
    end.

(** The exception [benchmark_influence] raises by itself when [n_samples]
    is not positive. *)
Definition own_error (n : Z) : Exn :=
  if n =? 0 then ZeroDivisionError else UnboundLocalError.

(** The trace of a pass that gets as far as the second clock reading
    without a call of [predict]. *)
Definition aborted_pass_events (c : Conf) (est : Estimator) (r : string)
    (t0 t1 : Q) : list Event :=
  [ EvCall (CInit (tuned_params c)) None;
    EvCall (CRepr est) None;
    EvPrint (Benchmarking r);
    EvCall (CFit est (X_train (data c)) (y_train (data c))) None;
    EvCall (CHook est) None;
    EvCall (CComplexity est) None;
    EvTime t0;
    EvTime t1 ].


(** ** The loop over [configurations] *)

(** The state of the main cell: the configuration objects the loop has
    gone through so far followed by those still to come (this is the list
    [configurations] as the loop leaves it), the list
    [model_compexity_influence_plot], the library state and the clock. *)
Record MainState : Type := {
  main_confs : list Conf;
  main_plots : list Figure;
  main_lib : LibState;
  main_clock : nat -> Q;
  main_ticks : nat
}.

(** [for conf in configurations: ...; model_compexity_influence_plot.append(trace)],
    for the configurations [todo] still to be processed. *)
Fixpoint for_confs (todo : list Conf) (w : MainState)
  : Outcome MainState Event unit :=
  match todo with
  | [] => {| res := inr tt; final := w; emitted := [] |}
  | c :: rest =>
      let o := benchmark_and_plot
                 {| conf := c; lib := main_lib w;
                    clock := main_clock w; ticks := main_ticks w |} in
      match res o with
      | inl e =>
          {| res := inl e;
             final := {| main_confs := main_confs w ++ conf (final o) :: rest;
                         main_plots := main_plots w;
                         main_lib := lib (final o);
                         main_clock := clock (final o);
                         main_ticks := ticks (final o) |};
             emitted := emitted o |}
      | inr trace =>
          let o' := for_confs rest
                      {| main_confs := main_confs w ++ [conf (final o)];
                         main_plots := main_plots w ++ [trace];
                         main_lib := lib (final o);
                         main_clock := clock (final o);
                         main_ticks := ticks (final o) |} in
          {| res := res o'; final := final o';
             emitted := emitted o ++ emitted o' |}
      end
  end.

(** The main cell from [model_compexity_influence_plot = []] on. *)
Definition main_loop (configurations : list Conf) (s : LibState)
    (clk : nat -> Q) (k : nat) : Outcome MainState Event unit :=
  for_confs configurations
    {| main_confs := []; main_plots := []; main_lib := s;
       main_clock := clk; main_ticks := k |}.

(** What a figure shows of the configuration it was drawn for. *)
Definition drawn_for (c : Conf) (fig : Figure) : Prop :=
  lay_title (fig_layout fig) =
    "Influence of Model Complexity - " +:+ cls_name (estimator c) /\
  ax_title (lay_yaxis (fig_layout fig)) = prediction_performance_label c /\
  Forall (fun t => length (sc_x t) = length (changing_param_values c) /\
                   length (sc_y t) = length (changing_param_values c))
    (fig_data fig).


End Sweep.

(** * [generate_data] *)

(** What [generate_data] raises: [AttributeError] when it reads an attribute
    of [None], or whatever a library function raised. *)
Inductive DataExn : Type :=
| AttributeError
| Raised (e : Exn).

(** What [generate_data] takes from its imports.  A two-dimensional array or
    sparse matrix is the list of its rows, [X.shape[0]] its length; a bunch
    is the pair of its [data] and [target] attributes. *)
Class Loaders `{Sklearn} : Type := {
  Row : Type;
  Target : Type;
  load_boston : Lib (list Row * list Target);
  fetch_20newsgroups_vectorized : Lib (list Row * list Target);
  shuffle : list Row -> list Target -> Lib (list Row * list Target);
  csr_matrix : list Row -> Lib Array;
  np_array : list Row -> Lib Array;
  np_array_1d : list Target -> Lib Array
}.

Section Datasets.
Context `{Loaders}.

Definition Gen (A : Type) : Type := LibState -> (DataExn + A) * LibState.

Definition gret {A} (a : A) : Gen A := fun s => (inr a, s).

Definition graise {A} (e : DataExn) : Gen A := fun s => (inl e, s).

Definition gbind {A B} (m : Gen A) (f : A -> Gen B) : Gen B :=
  fun s =>
    match m s with
    | (inl e, s') => (inl e, s')
    | (inr a, s') => f a s'
    end.

(** A call into the library. *)
Definition lift {A} (f : Lib A) : Gen A :=
  fun s =>
    match f s with
    | (inl e, s') => (inl (Raised e), s')
    | (inr a, s') => (inr a, s')
    end.

(** [int(x)] on a float: truncation towards zero. *)
Definition int_of_float (x : Q) : Z :=
  if Qle_bool 0 x then Qfloor x else Qceiling x.

(** [l[:o]] and [l[o:]] for an integer [o] of either sign. *)
Definition slice_to {A} (l : list A) (o : Z) : list A :=
  if 0 <=? o then take (Z.to_nat o) l
  else take (length l - Z.to_nat (- o)) l.

Definition slice_from {A} (l : list A) (o : Z) : list A :=
  if 0 <=? o then drop (Z.to_nat o) l
  else drop (length l - Z.to_nat (- o)) l.

Definition generate_data (case : string) (sparse : bool) : Gen Data :=
  gbind (if String.eqb case "regression" then
           gbind (lift load_boston) (fun b => gret (Some b))
         else if String.eqb case "classification" then
           gbind (lift fetch_20newsgroups_vectorized) (fun b => gret (Some b))
         else gret None) (fun bunch =>
  gbind (match bunch with
         | Some b => gret b
         | None => graise AttributeError
         end) (fun b =>
  gbind (lift (shuffle b.1 b.2)) (fun Xy =>
  let X := Xy.1 in
  let y := Xy.2 in
  let offset := int_of_float (inject_Z (Z.of_nat (length X)) * (8 # 10))%Q in
  let X_train0 := slice_to X offset in
  let y_train0 := slice_to y offset in
  let X_test0 := slice_from X offset in
  let y_test0 := slice_from y offset in
  gbind (if sparse then
           gbind (lift (csr_matrix X_train0)) (fun X_train1 =>
           gbind (lift (csr_matrix X_test0)) (fun X_test1 =>
           gret (X_train1, X_test1)))
         else
           gbind (lift (np_array X_train0)) (fun X_train1 =>
           gbind (lift (np_array X_test0)) (fun X_test1 =>
           gret (X_train1, X_test1)))) (fun Xs =>
  gbind (lift (np_array_1d y_test0)) (fun y_test1 =>
  gbind (lift (np_array_1d y_train0)) (fun y_train1 =>
  gret {| X_train := Xs.1; X_test := Xs.2;
          y_train := y_train1; y_test := y_test1 |})))))).

(** ** Vocabulary for statements about [generate_data] *)

(** The dataset loader a case selects. *)
Definition loader (case : string) : option (Lib (list Row * list Target)) :=
  if String.eqb case "regression" then Some load_boston
  else if String.eqb case "classification" then Some fetch_20newsgroups_vectorized
  else None.

(** From library state [s], the case's dataset is loaded and shuffled into
    [X] and [y], leaving the library in state [s']. *)
Definition shuffled_bunch (case : string) (s : LibState)
    (X : list Row) (y : list Target) (s' : LibState) : Prop :=
  exists load b s1,
    loader case = Some load /\ load s = (inr b, s1) /\
    shuffle b.1 b.2 s1 = (inr (X, y), s').

(** From library state [s], the four parts are converted, in the order of
    the source, into the four arrays of [d], leaving state [s']. *)
Definition converted (sparse : bool) (Xtr Xte : list Row)
    (ytr yte : list Target) (s : LibState) (d : Data) (s' : LibState) : Prop :=
  let conv := if sparse then csr_matrix else np_array in
  exists s1 s2 s3,
    conv Xtr s = (inr (X_train d), s1) /\
    conv Xte s1 = (inr (X_test d), s2) /\
    np_array_1d yte s2 = (inr (y_test d), s3) /\
    np_array_1d ytr s3 = (inr (y_train d), s').

End Datasets.


(** * The OOB-error notebook *)

Module OOB.

(** What the notebook uses of a forest classifier. *)
Class Forest : Type := {
  FState : Type;
  Clf : Type;
  Samples : Type;
  set_params_n_estimators : Clf -> Z -> FState -> (Exn + unit) * FState;
  clf_fit : Clf -> Samples -> Samples -> FState -> (Exn + unit) * FState;
  oob_score_ : Clf -> FState -> (Exn + Q) * FState
}.

Section Tracker.
Context `{Forest}.

Inductive Event : Type :=
| EvSetParams (clf : Clf) (n_estimators : Z) (r : Exn + unit)
| EvFit (clf : Clf) (X y : Samples) (r : Exn + unit)
| EvOobScore (clf : Clf) (r : Exn + Q).

(** An [OrderedDict] from labels to lists of [(n_estimators, error)] pairs:
    keys are kept in the order of their first insertion. *)
Definition ErrorRate : Type := list (string * list (Z * Q)).

Fixpoint od_get (key : string) (d : ErrorRate) : option (list (Z * Q)) :=
  match d with
  | [] => None
  | (k, v) :: d' => if String.eqb k key then Some v else od_get key d'
  end.

Fixpoint od_set (key : string) (v : list (Z * Q)) (d : ErrorRate) : ErrorRate :=
  match d with
  | [] => [(key, v)]
  | (k, w) :: d' =>
      if String.eqb k key then (k, v) :: d' else (k, w) :: od_set key v d'
  end.

(** [OrderedDict((label, []) for label, _ in ensemble_clfs)] *)
Definition od_init (ensemble_clfs : list (string * Clf)) : ErrorRate :=
  foldl (fun d lc => od_set lc.1 [] d) [] ensemble_clfs.

Record State : Type := {
  error_rate : ErrorRate;
  flib : FState
}.

Definition OM (A : Type) : Type := M State Event A.

Definition set_params (clf : Clf) (i : Z) : OM unit :=
  fun st =>
    let r := set_params_n_estimators clf i (flib st) in
    {| res := r.1;
       final := {| error_rate := error_rate st; flib := r.2 |};
       emitted := [EvSetParams clf i r.1] |}.

Definition fit (clf : Clf) (X y : Samples) : OM unit :=
  fun st =>
    let r := clf_fit clf X y (flib st) in
    {| res := r.1;
       final := {| error_rate := error_rate st; flib := r.2 |};
       emitted := [EvFit clf X y r.1] |}.

Definition get_oob_score (clf : Clf) : OM Q :=
  fun st =>
    let r := oob_score_ clf (flib st) in
    {| res := r.1;
       final := {| error_rate := error_rate st; flib := r.2 |};
       emitted := [EvOobScore clf r.1] |}.

(** [error_rate[label].append(pair)] *)
Definition record_error (label : string) (pair : Z * Q) : OM unit :=
  fun st =>
    match od_get label (error_rate st) with
    | None => {| res := inl (KeyError label); final := st; emitted := [] |}
    | Some l =>
        {| res := inr tt;
           final := {| error_rate := od_set label (l ++ [pair]) (error_rate st);
                       flib := flib st |};
           emitted := [] |}
    end.

(** The dataset of the notebook, produced once by [make_classification]. *)
Variables X y : Samples.

(** The body of the inner loop. *)
Definition grow (label : string) (clf : Clf) (i : Z) : OM unit :=
  set_params clf i ;;;
  fit clf X y ;;;
  score <- get_oob_score clf ;;
  let oob_error := (1 - score)%Q in
  record_error label (i, oob_error).

Fixpoint for_sizes (label : string) (clf : Clf) (sizes : list Z) : OM unit :=
  match sizes with
  | [] => ret tt
  | i :: rest => grow label clf i ;;; for_sizes label clf rest
  end.

(** [range(lo, hi)] on integers. *)
Definition range (lo hi : Z) : list Z := seqZ lo (hi - lo).

Fixpoint for_clfs (ensemble_clfs : list (string * Clf))
    (min_estimators max_estimators : Z) : OM unit :=
  match ensemble_clfs with
  | [] => ret tt
  | (label, clf) :: rest =>
      for_sizes label clf (range min_estimators (max_estimators + 1)) ;;;
      for_clfs rest min_estimators max_estimators
  end.

(** The calculation cell, from the initialisation of [error_rate] on. *)
Definition track (ensemble_clfs : list (string * Clf))
    (min_estimators max_estimators : Z) (s : FState) : Outcome State Event unit :=
  for_clfs ensemble_clfs min_estimators max_estimators
    {| error_rate := od_init ensemble_clfs; flib := s |}.

(** The constants of the notebook. *)
Definition min_estimators : Z := 15.
Definition max_estimators : Z := 175.

Definition labels : list string :=
  [ "RandomForestClassifier,<br>max_features='sqrt'";
    "RandomForestClassifier,<br>max_features='log2'";
    "RandomForestClassifier,<br>max_features=None" ].

(** ** Vocabulary for statements about the tracker *)

(** Append [new] to the list stored under [key], if there is one. *)
Fixpoint od_extend (key : string) (new : list (Z * Q)) (d : ErrorRate) : ErrorRate :=
  match d with
  | [] => []
  | (k, l) :: d' =>
      if String.eqb k key then (k, l ++ new) :: d'
      else (k, l) :: od_extend key new d'
  end.

(** The events and the recorded pair of one returning pass of the inner
    loop, for ensemble size [i] and out-of-bag score [s]. *)
Definition grow_events (clf : Clf) (p : Z * Q) : list Event :=
  [ EvSetParams clf p.1 (inr tt); EvFit clf X y (inr tt); EvOobScore clf (inr p.2) ].

Definition error_pair (p : Z * Q) : Z * Q := (p.1, (1 - p.2)%Q).

(** What one classifier contributes: its events and its recorded pairs. *)
Definition clf_events (sizes : list Z) (lc : string * Clf) (scores : list Q)
  : list Event :=
  concat (map (grow_events lc.2) (zip sizes scores)).

Definition clf_record (sizes : list Z) (d : ErrorRate)
    (ls : (string * Clf) * list Q) : ErrorRate :=
  od_extend ls.1.1 (map error_pair (zip sizes ls.2)) d.

(** None of the three library functions raises. *)
Definition forest_total : Prop :=
  (forall clf i s, exists s', set_params_n_estimators clf i s = (inr tt, s')) /\
  (forall clf X' y' s, exists s', clf_fit clf X' y' s = (inr tt, s')) /\
  (forall clf s, exists q s', oob_score_ clf s = (inr q, s')).

(** Every key of [d] is a key of [d']. *)
Definition keys_kept (d d' : ErrorRate) : Prop :=
  forall key, is_Some (od_get key d) -> is_Some (od_get key d').

(** The exception a library call of the trace ended in. *)
Definition raised_by (ev : Event) (e : Exn) : Prop :=
  match ev with
  | EvSetParams _ _ r => r = inl e
  | EvFit _ _ _ r => r = inl e
  | EvOobScore _ r => r = inl e
  end.

(** Number of entries of [ensemble_clfs] that carry the label. *)
Definition occurrences (label : string) (ensemble_clfs : list (string * Clf)) : nat :=
  length (filter (fun lc => lc.1 = label) ensemble_clfs).

(** ** The plotting cell *)

(** [ValueError]: the unpacking [xs, ys = zip( *clf_err )] of an empty
    list. *)
Inductive PlotExn : Type :=
| ValueError.

Record Trace : Type := {
  tr_x : list Z;
  tr_y : list Q;
  tr_name : string;
  tr_mode : string
}.

Record PlotLayout : Type := {
  pl_xaxis_title : string;
  pl_yaxis_title : string;
  pl_hovermode : string
}.

Record OobFigure : Type := {
  of_data : list Trace;
  of_layout : PlotLayout
}.

(** [xs, ys = zip( *clf_err )]: the transposition of a list of pairs has two
    rows unless the list is empty, in which case it has none. *)
Definition unzip_pairs (clf_err : list (Z * Q)) : PlotExn + (list Z * list Q) :=
  match clf_err with
  | [] => inl ValueError
  | _ => inr (clf_err.*1, clf_err.*2)
  end.

(** [for label, clf_err in error_rate.items(): ...; data.append(trace)] *)
Fixpoint plot_traces (items : ErrorRate) (data : list Trace)
  : PlotExn + list Trace :=
  match items with
  | [] => inr data
  | (label, clf_err) :: rest =>
      match unzip_pairs clf_err with
      | inl e => inl e
      | inr (xs, ys) =>
          let trace := {| tr_x := xs; tr_y := ys;
                          tr_name := label; tr_mode := "lines" |} in
          plot_traces rest (data ++ [trace])
      end
  end.

Definition plot_cell (error_rate : ErrorRate) : PlotExn + OobFigure :=
  match plot_traces error_rate [] with
  | inl e => inl e
  | inr data =>
      let layout := {| pl_xaxis_title := "n_estimators";
                       pl_yaxis_title := "OOB error rate";
                       pl_hovermode := "closest" |} in
      inr {| of_data := data; of_layout := layout |}
  end.

(** The trace drawn for an entry of [error_rate]. *)
Definition trace_of (item : string * list (Z * Q)) : Trace :=
  {| tr_x := item.2.*1; tr_y := item.2.*2;
     tr_name := item.1; tr_mode := "lines" |}.


End Tracker.

End OOB.

(** * A library none of whose functions raises *)

Module Calm.

#[local] Instance sklearn : Sklearn := {|
  LibState := nat;
  Estimator := Params;
  Array := list Z;
  est_fit := fun _ _ _ s => (inr tt, S s);
  est_predict := fun _ X s => (inr X, S s);
  est_repr := fun _ s => (inr "Estimator()", s)
|}.

Definition nusvr_conf : Conf :=
  {| estimator := {| cls_name := "NuSVR";
                     cls_init := fun kwargs s => (inr kwargs, S s) |};
     tuned_params := <["C" := VFloat 1000]> ∅;
     changing_param := "nu";
     changing_param_values := [VFloat (1 # 10); VFloat (1 # 4)];
     complexity_label := "n_support_vectors";
     complexity_computer := fun _ s => (inr (Z.of_nat s), s);
     prediction_performance_computer := fun _ _ s => (inr (7 # 2)%Q, S s);
     prediction_performance_label := "MSE";
     postfit_hook := fun _ s => (inr tt, s);
     data := {| X_train := [1; 2]; X_test := [3]; y_train := [0; 1]; y_test := [1] |};
     n_samples := 30 |}.

(** [nusvr_conf] with another number of repetitions. *)
Definition with_n_samples (n : Z) : Conf :=
  {| estimator := estimator nusvr_conf;
     tuned_params := tuned_params nusvr_conf;
     changing_param := changing_param nusvr_conf;
     changing_param_values := changing_param_values nusvr_conf;
     complexity_label := complexity_label nusvr_conf;
     complexity_computer := complexity_computer nusvr_conf;
     prediction_performance_computer := prediction_performance_computer nusvr_conf;
     prediction_performance_label := prediction_performance_label nusvr_conf;
     postfit_hook := postfit_hook nusvr_conf;
     data := data nusvr_conf;
     n_samples := n |}.

Definition start (c : Conf) : State :=
  {| conf := c; lib := 0%nat; clock := fun k => inject_Z (Z.of_nat (3 * k)); ticks := 0 |}.


End Calm.

(** * A small concrete library, to run the notebooks on

    Estimators are their keyword dictionaries, arrays are integer lists, and
    the library state counts the calls made so far.  [fit] raises when the
    estimator was built with [fail=True]; everything else succeeds. *)

Module Toy.

#[local] Instance sklearn : Sklearn := {|
  LibState := nat;
  Estimator := Params;
  Array := list Z;
  est_fit := fun est _ _ s =>
    match est !! "fail" with
    | Some (VBool true) => (inl (LibraryError "fit failed"), S s)
    | _ => (inr tt, S s)
    end;
  est_predict := fun _ X s => (inr X, S s);
  est_repr := fun _ s => (inr "Estimator()", s)
|}.

Definition cls (name : string) : EstimatorClass :=
  {| cls_name := name; cls_init := fun kwargs s => (inr kwargs, S s) |}.

Definition dataset : Data :=
  {| X_train := [1; 2; 3; 4]; X_test := [5]; y_train := [0; 1; 0; 1]; y_test := [1] |}.

Definition imports : Imports :=
  {| SGDClassifier := cls "SGDClassifier";
     NuSVR := cls "NuSVR";
     GradientBoostingRegressor := cls "GradientBoostingRegressor";
     hamming_loss := fun _ _ s => (inr (1 # 4)%Q, S s);
     mean_squared_error := fun _ _ s => (inr (7 # 2)%Q, S s);
     sparsify := fun _ s => (inr tt, S s);
     coef_toarray := fun _ s => (inr [0; 3; 0; 5], s);
     np_count_nonzero := fun a s =>
       (inr (Z.of_nat (length (filter (fun z => z ≠ 0) a))), s);
     len_support_vectors := fun _ s => (inr (Z.of_nat s), s);
     get_n_estimators := fun est s =>
       match est !! "n_estimators" with
       | Some (VInt n) => (inr n, s)
       | _ => (inl (LibraryError "n_estimators"), s)
       end;
     regression_data := dataset;
     classification_data := dataset |}.

(** A configuration whose value list is empty. *)
Definition empty_conf : Conf :=
  {| estimator := cls "NuSVR";
     tuned_params := <["C" := VFloat 1000]> ∅;
     changing_param := "nu";
     changing_param_values := [];
     complexity_label := "n_support_vectors";
     complexity_computer := len_support_vectors imports;
     prediction_performance_computer := mean_squared_error imports;
     prediction_performance_label := "MSE";
     postfit_hook := fun _ s => (inr tt, s);
     data := dataset;
     n_samples := 30 |}.

(** The elements of [configurations], by position. *)
Definition nth_conf (i : nat) : Conf := nth i (configurations imports) empty_conf.

(** A configuration whose second estimator cannot be fitted. *)
Definition failing_conf : Conf :=
  {| estimator := cls "Fragile";
     tuned_params := ∅;
     changing_param := "fail";
     changing_param_values := [VBool false; VBool true; VBool false];
     complexity_label := "calls";
     complexity_computer := len_support_vectors imports;
     prediction_performance_computer := mean_squared_error imports;
     prediction_performance_label := "MSE";
     postfit_hook := fun _ s => (inr tt, s);
     data := dataset;
     n_samples := 2 |}.

(** [c] with another number of repetitions. *)
Definition with_n_samples (n : Z) (c : Conf) : Conf :=
  {| estimator := estimator c;
     tuned_params := tuned_params c;
     changing_param := changing_param c;
     changing_param_values := changing_param_values c;
     complexity_label := complexity_label c;
     complexity_computer := complexity_computer c;
     prediction_performance_computer := prediction_performance_computer c;
     prediction_performance_label := prediction_performance_label c;
     postfit_hook := postfit_hook c;
     data := data c;
     n_samples := n |}.

(** Two wall clocks. *)
Definition clock_a (k : nat) : Q := inject_Z (Z.of_nat (k * k)).
Definition clock_b (k : nat) : Q := (inject_Z (Z.of_nat k) * (3 # 7))%Q.

Definition start (c : Conf) : State :=
  {| conf := c; lib := 0%nat; clock := clock_a; ticks := 0 |}.

(** The forest library: the score read after a fit depends on the number of
    calls made so far. *)
#[local] Instance forest : OOB.Forest := {|
  OOB.FState := nat;
  OOB.Clf := nat;
  OOB.Samples := list Z;
  OOB.set_params_n_estimators := fun _ _ s => (inr tt, S s);
  OOB.clf_fit := fun _ _ _ s => (inr tt, S s);
  OOB.oob_score_ := fun clf s => (inr (1 # Pos.of_nat (S (clf + s)))%Q, s)
|}.

(** [ensemble_clfs]: the three labels of the notebook, each with its own
    classifier object. *)
Definition ensemble_clfs : list (string * nat) :=
  zip OOB.labels [0%nat; 1%nat; 2%nat].

(** The dataset loaders: ten rows for Boston, one for the newsgroups; the
    shuffle reverses rows and targets alike; the conversions keep the
    rows. *)
#[local] Instance loaders : Loaders := {|
  Row := Z;
  Target := Z;
  load_boston := fun s =>
    (inr ([10; 11; 12; 13; 14; 15; 16; 17; 18; 19], [0; 1; 2; 3; 4; 5; 6; 7; 8; 9]), S s);
  fetch_20newsgroups_vectorized := fun s => (inr ([7], [1]), S s);
  shuffle := fun X y s => (inr (reverse X, reverse y), S s);
  csr_matrix := fun X s => (inr X, S s);
  np_array := fun X s => (inr X, S s);
  np_array_1d := fun y s => (inr y, S s)
|}.

(** Three configurations, the second of which cannot be fitted. *)
Definition mixed_confs : list Conf := [nth_conf 0; failing_conf; nth_conf 1].

(** Classifiers two of which share a label. *)
Definition repeated_clfs : list (string * nat) :=
  [("forest", 0%nat); ("extra", 1%nat); ("forest", 2%nat)].


End Toy.

(** * A forest library that gives up

    [fit] raises once seven library calls have been made. *)

Module Brittle.

#[local] Instance forest : OOB.Forest := {|
  OOB.FState := nat;
  OOB.Clf := nat;
  OOB.Samples := list Z;
  OOB.set_params_n_estimators := fun _ _ s => (inr tt, S s);
  OOB.clf_fit := fun _ _ _ s =>
    if (7 <=? s)%nat then (inl (LibraryError "out of memory"), S s)
    else (inr tt, S s);
  OOB.oob_score_ := fun clf s => (inr (1 # Pos.of_nat (S (clf + s)))%Q, s)
|}.

Definition ensemble_clfs : list (string * nat) :=
  [("sqrt", 0%nat); ("log2", 1%nat)].

End Brittle.


(** * Facts about computations *)

Section MonadFacts.
Context {St Ev : Type}.
Implicit Types (st : St) (evs : list Ev).

Lemma bind_returns_inv {A B} (m : M St Ev A) (f : A -> M St Ev B) st b st2 evs :
  bind m f st = {| res := inr b; final := st2; emitted := evs |} ->
  exists a st1 e1 e2,
    m st = {| res := inr a; final := st1; emitted := e1 |} /\
    f a st1 = {| res := inr b; final := st2; emitted := e2 |} /\
    evs = e1 ++ e2.
Proof.
  unfold bind. destruct (m st) as [[e|a] st1 e1]; simpl; [discriminate|].
  destruct (f a st1) as [r st2' e2] eqn:E; simpl.
  intros [= -> -> <-]. eauto 10.
Qed.

Lemma bind_returns {A B} (m : M St Ev A) (f : A -> M St Ev B) st a st1 e1 b st2 e2 :
  m st = {| res := inr a; final := st1; emitted := e1 |} ->
  f a st1 = {| res := inr b; final := st2; emitted := e2 |} ->
  bind m f st = {| res := inr b; final := st2; emitted := e1 ++ e2 |}.
Proof. unfold bind. intros -> E. simpl. rewrite E. done. Qed.

Lemma maintains_bind {A B} (R : St -> St -> Prop) (m : M St Ev A) (f : A -> M St Ev B) :
  (forall s1 s2 s3, R s1 s2 -> R s2 s3 -> R s1 s3) ->
  maintains R m -> (forall a, maintains R (f a)) -> maintains R (bind m f).
Proof.
  intros HR Hm Hf st. unfold bind. specialize (Hm st).
  destruct (m st) as [[e|a] st1 e1]; simpl in *; [done|].
  eapply HR; [exact Hm|apply Hf].
Qed.

End MonadFacts.

(** * Facts about the sweep *)

Section SweepFacts.
Context `{Sklearn}.
Implicit Types (st : State) (c : Conf) (L : Locals) (v : PyVal).

(** ** What a run may write *)

Lemma same_but_tuned_refl c : same_but_tuned c c.
Proof. by destruct c. Qed.

Lemma same_but_tuned_trans c1 c2 c3 :
  same_but_tuned c1 c2 -> same_but_tuned c2 c3 -> same_but_tuned c1 c3.
Proof. unfold same_but_tuned. intros -> ->. done. Qed.

Lemma same_but_tuned_with p c : same_but_tuned c (with_tuned_params p c).
Proof. done. Qed.

Lemma keeps_conf_bind {A B} (m : SM A) (f : A -> SM B) :
  keeps_conf m -> (forall a, keeps_conf (f a)) -> keeps_conf (bind m f).
Proof. apply maintains_bind. congruence. Qed.

Lemma keeps_conf_ret {A} (a : A) : keeps_conf (ret a).
Proof. done. Qed.

Lemma keeps_conf_raise {A} e : keeps_conf (raise (A:=A) e).
Proof. done. Qed.

Lemma keeps_conf_rd {A} (f : Conf -> A) : keeps_conf (rd f).
Proof. done. Qed.

Lemma keeps_conf_call {A} k (f : Lib A) : keeps_conf (call k f).
Proof. done. Qed.

Lemma keeps_conf_time : keeps_conf time_time.
Proof. done. Qed.

Lemma keeps_conf_print p : keeps_conf (print p).
Proof. done. Qed.

Create HintDb keeps discriminated.
#[local] Hint Resolve keeps_conf_ret keeps_conf_raise keeps_conf_rd
  keeps_conf_call keeps_conf_time keeps_conf_print : keeps.

Ltac solve_keeps :=
  repeat first
    [ apply keeps_conf_bind; [|intros]
    | solve [auto with keeps]
    | match goal with |- keeps_conf (if ?b then _ else _) => destruct b end
    | match goal with |- keeps_conf (match ?x with _ => _ end) => destruct x end ].

Lemma keeps_conf_predict_loop est n yp : keeps_conf (predict_loop est n yp).
Proof. revert yp. induction n as [|n IH]; intros yp; simpl; solve_keeps. Qed.

#[local] Hint Resolve keeps_conf_predict_loop : keeps.

(** After the body of the loop, whether it returned or raised, the
    configuration is the one before with the varying parameter set. *)
Lemma iteration_conf v L st :
  conf (final (iteration v L st)) =
  with_tuned_params (<[changing_param (conf st) := v]> (tuned_params (conf st)))
    (conf st).
Proof.
  unfold iteration. unfold bind at 1 2 3; simpl.
  match goal with
  | |- conf (final (?m ?s)) = _ =>
      assert (K : keeps_conf m) by solve_keeps; exact (K s)
  end.
Qed.

Lemma writes_tuned_only_bind {A B} (m : SM A) (f : A -> SM B) :
  writes_tuned_only m -> (forall a, writes_tuned_only (f a)) ->
  writes_tuned_only (bind m f).
Proof. apply maintains_bind. intros ???. apply same_but_tuned_trans. Qed.

Lemma writes_tuned_only_keeps {A} (m : SM A) : keeps_conf m -> writes_tuned_only m.
Proof. intros K st. rewrite (K st). apply same_but_tuned_refl. Qed.

Lemma for_each_frame values L : writes_tuned_only (for_each values L).
Proof.
  revert L. induction values as [|v values IH]; intros L; simpl.
  - apply writes_tuned_only_keeps. solve_keeps.
  - apply writes_tuned_only_bind; [|done].
    intros st. rewrite iteration_conf. apply same_but_tuned_with.
Qed.

Lemma benchmark_influence_frame : writes_tuned_only benchmark_influence.
Proof.
  unfold benchmark_influence.
  apply writes_tuned_only_bind; [apply writes_tuned_only_keeps; solve_keeps|intros values].
  apply writes_tuned_only_bind; [apply for_each_frame|intros L].
  apply writes_tuned_only_keeps; solve_keeps.
Qed.

Lemma benchmark_and_plot_frame : writes_tuned_only benchmark_and_plot.
Proof.
  unfold benchmark_and_plot.
  apply writes_tuned_only_bind; [apply benchmark_influence_frame|].
  intros [[pp pt] cs]. apply writes_tuned_only_keeps. unfold plot_influence.
  solve_keeps.
Qed.

(** ** Runs that return *)

Lemma rd_returns {A} (f : Conf -> A) st a st1 e :
  rd f st = {| res := inr a; final := st1; emitted := e |} ->
  a = f (conf st) /\ st1 = st /\ e = [].
Proof. unfold rd. intros [= <- <- <-]. done. Qed.

Lemma ret_returns {A} (x : A) st a st1 (e : list Event) :
  ret x st = {| res := inr a; final := st1; emitted := e |} ->
  a = x /\ st1 = st /\ e = [].
Proof. unfold ret. intros [= <- <- <-]. done. Qed.

Lemma print_returns p st a st1 e :
  print p st = {| res := inr a; final := st1; emitted := e |} ->
  st1 = st /\ e = [EvPrint p].
Proof. unfold print. intros [= <- <- <-]. done. Qed.

Lemma time_returns st t st1 e :
  time_time st = {| res := inr t; final := st1; emitted := e |} ->
  t = clock st (ticks st) /\
  st1 = {| conf := conf st; lib := lib st; clock := clock st; ticks := S (ticks st) |} /\
  e = [EvTime (clock st (ticks st))].
Proof. unfold time_time. intros [= <- <- <-]. done. Qed.

Lemma set_tuned_param_returns key v st a st1 e :
  set_tuned_param key v st = {| res := inr a; final := st1; emitted := e |} ->
  st1 = {| conf := with_tuned_params (<[key := v]> (tuned_params (conf st))) (conf st);
           lib := lib st; clock := clock st; ticks := ticks st |} /\ e = [].
Proof. unfold set_tuned_param. intros [= <- <- <-]. done. Qed.

Lemma call_returns {A} k (f : Lib A) st a st1 e :
  call k f st = {| res := inr a; final := st1; emitted := e |} ->
  exists s', f (lib st) = (inr a, s') /\
    st1 = {| conf := conf st; lib := s'; clock := clock st; ticks := ticks st |} /\
    e = [EvCall k None].
Proof.
  unfold call. destruct (f (lib st)) as [r s'] eqn:E; simpl.
  intros [= -> <- <-]. eauto.
Qed.

Ltac returns_prim H :=
  first
    [ apply rd_returns in H as (-> & -> & ->)
    | apply ret_returns in H as (-> & -> & ->)
    | apply print_returns in H as (-> & ->)
    | apply time_returns in H as (-> & -> & ->)
    | apply set_tuned_param_returns in H as (-> & ->)
    | let s := fresh "s" in let E := fresh "E" in
      apply call_returns in H as (s & E & -> & ->) ];
  simpl in *.

(** Peel the first step off a returning [bind] and invert it. *)
Ltac returns_step H :=
  let a := fresh "a" in let st1 := fresh "st" in
  let e1 := fresh "e" in let e2 := fresh "e" in
  let Hm := fresh "Hm" in
  apply bind_returns_inv in H as (a & st1 & e1 & e2 & Hm & H & ->);
  try returns_prim Hm.

Lemma predict_loop_returns est n : forall yp st yp' st' evs,
  predict_loop est n yp st = {| res := inr yp'; final := st'; emitted := evs |} ->
  evs = replicate n (EvCall (CPredict est (X_test (data (conf st)))) None) /\
  conf st' = conf st /\ clock st' = clock st /\ ticks st' = ticks st /\
  (n = O -> yp' = yp) /\ (n <> O -> exists y, yp' = Some y).
Proof.
  induction n as [|n IH]; intros yp st yp' st' evs Hrun; simpl in Hrun.
  - returns_prim Hrun. repeat split; done.
  - returns_step Hrun. returns_step Hrun.
    apply IH in Hrun as (-> & ? & ? & ? & Hz & Hy); simpl in *.
    repeat split; try done.
    intros _. destruct n; [rewrite Hz by done; eauto|by apply Hy].
Qed.

Lemma iteration_returns v L st L' st' evs :
  iteration v L st = {| res := inr L'; final := st'; emitted := evs |} ->
  let c := with_tuned_params
             (<[changing_param (conf st) := v]> (tuned_params (conf st))) (conf st) in
  let t0 := clock st (ticks st) in
  let t1 := clock st (S (ticks st)) in
  exists est r y complexity score,
    evs = pass_events c est r t0 t1 y complexity score /\
    L' = {| prediction_times :=
              prediction_times L ++ [((t1 - t0) / inject_Z (n_samples c))%Q];
            prediction_powers := prediction_powers L ++ [score];
            complexities := complexities L ++ [complexity];
            y_pred := Some y |} /\
    n_samples c <> 0 /\
    (y_pred L = None -> 1 <= n_samples c) /\
    conf st' = c /\ clock st' = clock st /\ ticks st' = S (S (ticks st)).
Proof.
  intros Hrun c t0 t1. unfold iteration in Hrun.
  do 15 returns_step Hrun.
  returns_step Hrun.
  apply predict_loop_returns in Hm as (-> & Hc & Hk & Ht & Hz & Hy).
  simpl in *.
  do 3 returns_step Hrun.
  rewrite Hc in *; simpl in *.
  destruct (n_samples (conf st) =? 0) eqn:Hn; [discriminate|].
  apply Z.eqb_neq in Hn. returns_prim Hm.
  do 3 returns_step Hrun.
  match type of Hm with
  | context [match ?o with _ => _ end] => destruct o as [y|]; [|discriminate]
  end.
  returns_prim Hm.
  do 3 returns_step Hrun. returns_prim Hrun.
  rewrite Hk, Ht in *; simpl in *.
  eexists _, _, y, _, _. repeat split; try done.
  intros HL. destruct (Z.to_nat (n_samples (conf st))) eqn:En; [|lia].
  specialize (Hz eq_refl). congruence.
Qed.

(** A returning loop appends one entry per value to each of the three
    lists and reads the clock twice per value. *)
Lemma for_each_returns values : forall L st L' st' evs,
  for_each values L st = {| res := inr L'; final := st'; emitted := evs |} ->
  exists ps ts cs,
    length ps = length values /\ length ts = length values /\
    length cs = length values /\
    prediction_powers L' = prediction_powers L ++ ps /\
    prediction_times L' = prediction_times L ++ ts /\
    complexities L' = complexities L ++ cs /\
    clock st' = clock st /\
    ticks st' = (ticks st + 2 * length values)%nat /\
    n_samples (conf st') = n_samples (conf st) /\
    changing_param (conf st') = changing_param (conf st) /\
    (y_pred L = None -> values <> [] -> 1 <= n_samples (conf st)).
Proof.
  induction values as [|v values IH]; intros L st L' st' evs Hrun; simpl in Hrun.
  - returns_prim Hrun. exists [], [], []. rewrite !app_nil_r.
    repeat split; try done; lia.
  - returns_step Hrun.
    apply iteration_returns in Hm
      as (est & r & y & c & score & _ & -> & _ & Hn & Hc & Hk & Ht).
    apply IH in Hrun
      as (ps & ts & cs & Hps & Hts & Hcs & Ep & Et & Ec & Hk' & Ht' & Hn' & Hcp & _).
    simpl in *. rewrite Hc in *; simpl in *.
    eexists (_ :: ps), (_ :: ts), (_ :: cs). simpl.
    rewrite Ep, Et, Ec, <- !app_assoc; simpl.
    repeat split; try done; try congruence; try lia; auto.
Qed.

Lemma for_each_nth values : forall i v L st L' st' evs,
  values !! i = Some v ->
  for_each values L st = {| res := inr L'; final := st'; emitted := evs |} ->
  exists Li sti ei Lj stj ej ek,
    for_each (take i values) L st = {| res := inr Li; final := sti; emitted := ei |} /\
    iteration v Li sti = {| res := inr Lj; final := stj; emitted := ej |} /\
    for_each (drop (S i) values) Lj stj =
      {| res := inr L'; final := st'; emitted := ek |} /\
    evs = ei ++ ej ++ ek.
Proof.
  induction values as [|v0 values IH]; intros i v L st L' st' evs Hi Hrun; [done|].
  simpl in Hrun. returns_step Hrun. destruct i as [|i]; simpl in *.
  - injection Hi as ->. exists L, st, [], a, st0, e, e0. done.
  - destruct (IH _ _ _ _ _ _ _ Hi Hrun)
      as (Li & sti & ei & Lj & stj & ej & ek & Hpre & Hit & Hpost & ->).
    exists Li, sti, (e ++ ei), Lj, stj, ej, ek. repeat split; try done.
    + eapply bind_returns; done.
    + by rewrite <- app_assoc.
Qed.

Lemma benchmark_influence_returns_inv st pp pt cs st' evs :
  benchmark_influence st =
    {| res := inr (pp, pt, cs); final := st'; emitted := evs |} ->
  exists L,
    for_each (changing_param_values (conf st)) no_locals st =
      {| res := inr L; final := st'; emitted := evs |} /\
    pp = prediction_powers L /\ pt = prediction_times L /\ cs = complexities L.
Proof.
  intros Hrun. unfold benchmark_influence in Hrun.
  do 2 returns_step Hrun.
  apply ret_returns in Hrun as (Hr & -> & ->). injection Hr as -> -> ->.
  rewrite app_nil_r. eauto.
Qed.

Lemma returns_eta {A} (o : Outcome State Event A) a :
  res o = inr a -> o = {| res := inr a; final := final o; emitted := emitted o |}.
Proof. destruct o; simpl. by intros ->. Qed.

Lemma clock_reads_app e1 e2 :
  clock_reads (e1 ++ e2) = (clock_reads e1 + clock_reads e2)%nat.
Proof. induction e1 as [|[]]; simpl; lia. Qed.

Lemma clock_reads_calls n k r : clock_reads (replicate n (EvCall k r)) = 0%nat.
Proof. induction n; simpl; lia. Qed.

Lemma for_each_clock_reads values : forall L st L' st' evs,
  for_each values L st = {| res := inr L'; final := st'; emitted := evs |} ->
  clock_reads evs = (2 * length values)%nat.
Proof.
  induction values as [|v values IH]; intros L st L' st' evs Hrun; simpl in Hrun.
  - by returns_prim Hrun.
  - returns_step Hrun.
    apply iteration_returns in Hm as (est & r & y & c & score & -> & _).
    apply IH in Hrun. rewrite clock_reads_app, Hrun. unfold pass_events.
    rewrite !clock_reads_app, clock_reads_calls. simpl. lia.
Qed.

(** ** The claims about [benchmark_influence] *)

(** C1. When [benchmark_influence] returns, each of the three returned
    sequences is as long as [conf['changing_param_values']], and the [i]-th
    entry of each is the one the loop body appended when it processed the
    [i]-th value: before that pass the three local lists are the first [i]
    entries of the returned sequences, after it the first [i+1], and the
    estimator of that pass is built with the varying parameter set to the
    [i]-th value. *)
Theorem benchmark_influence_aligned st pp pt cs :
  res (benchmark_influence st) = inr (pp, pt, cs) ->
  let values := changing_param_values (conf st) in
  length pp = length values /\ length pt = length values /\
  length cs = length values /\
  forall i v, values !! i = Some v ->
    exists L st_i e_i L' st_i' e',
      for_each (take i values) no_locals st =
        {| res := inr L; final := st_i; emitted := e_i |} /\
      iteration v L st_i = {| res := inr L'; final := st_i'; emitted := e' |} /\
      built_with (changing_param (conf st)) v e' /\
      prediction_powers L = take i pp /\ prediction_powers L' = take (S i) pp /\
      prediction_times L = take i pt /\ prediction_times L' = take (S i) pt /\
      complexities L = take i cs /\ complexities L' = take (S i) cs.
Proof.
  intros Hres values. apply returns_eta in Hres.
  apply benchmark_influence_returns_inv in Hres as (Lf & Hrun & -> & -> & ->).
  fold values in Hrun.
  destruct (for_each_returns _ _ _ _ _ _ Hrun)
    as (ps & ts & cs & Hps & Hts & Hcs & Ep & Et & Ec & _).
  simpl in Ep, Et, Ec. rewrite Ep, Et, Ec.
  repeat split; try done.
  intros i v Hi.
  destruct (for_each_nth _ _ _ _ _ _ _ _ Hi Hrun)
    as (Li & sti & ei & Lj & stj & ej & ek & Hpre & Hit & Hpost & _).
  exists Li, sti, ei, Lj, stj, ej. split; [done|]. split; [done|].
  destruct (for_each_returns _ _ _ _ _ _ Hpre)
    as (ps1 & ts1 & cs1 & Hps1 & Hts1 & Hcs1 & Ep1 & Et1 & Ec1 & _ & _ & _ & Hcp & _).
  destruct (for_each_returns _ _ _ _ _ _ Hpost)
    as (ps2 & ts2 & cs2 & _ & _ & _ & Ep2 & Et2 & Ec2 & _).
  destruct (iteration_returns _ _ _ _ _ _ Hit)
    as (est & r & y & c & score & Hev & HLj & _).
  assert (Hlen : length (take i values) = i).
  { rewrite length_take. apply lookup_lt_Some in Hi. lia. }
  rewrite Hlen in Hps1, Hts1, Hcs1. simpl in Ep1, Et1, Ec1.
  subst Lj; simpl in *.
  split.
  { eexists _, _. split; [rewrite Hev; reflexivity|]. simpl.
    rewrite Hcp. apply lookup_insert_eq. }
  rewrite <- Ep, <- Et, <- Ec, Ep2, Et2, Ec2, Ep1, Et1, Ec1.
  rewrite !(take_app3_length' _ _ _ i) by done.
  rewrite !(take_app_length' _ _ (S i)) by (rewrite length_app; simpl; lia).
  done.
Qed.

(** C5. When [benchmark_influence] returns, [n_samples] is at least 1 and
    the latency recorded for the [i]-th value is the difference between two
    consecutive clock readings of the run (readings number [2i] and [2i+1])
    divided by [n_samples]; between these two readings the run makes exactly
    [n_samples] calls of [predict] on [X_test], all on the same estimator,
    and nothing else. *)
Theorem latency_is_average_over_n_samples st pp pt cs :
  res (benchmark_influence st) = inr (pp, pt, cs) ->
  forall i v, changing_param_values (conf st) !! i = Some v ->
    let n := n_samples (conf st) in
    let t0 := clock st (ticks st + 2 * i)%nat in
    let t1 := clock st (S (ticks st + 2 * i)) in
    1 <= n /\
    pt !! i = Some ((t1 - t0) / inject_Z n)%Q /\
    exists est before after,
      emitted (benchmark_influence st) =
        before ++ [EvTime t0] ++
        replicate (Z.to_nat n) (EvCall (CPredict est (X_test (data (conf st)))) None) ++
        [EvTime t1] ++ after /\
      clock_reads before = (2 * i)%nat.
Proof.
  intros Hres i v Hi n t0 t1. apply returns_eta in Hres.
  apply benchmark_influence_returns_inv in Hres as (Lf & Hrun & _ & -> & _).
  destruct (for_each_nth _ _ _ _ _ _ _ _ Hi Hrun)
    as (Li & sti & ei & Lj & stj & ej & ek & Hpre & Hit & Hpost & Hev).
  destruct (for_each_returns _ _ _ _ _ _ Hrun)
    as (_ & _ & _ & _ & _ & _ & _ & _ & _ & _ & _ & _ & _ & Hn).
  destruct (for_each_returns _ _ _ _ _ _ Hpre)
    as (ps1 & ts1 & cs1 & _ & Hts1 & _ & _ & Et1 & _ & Hk & Ht & Hns & _).
  destruct (for_each_returns _ _ _ _ _ _ Hpost)
    as (ps2 & ts2 & cs2 & _ & _ & _ & _ & Et2 & _).
  destruct (iteration_returns _ _ _ _ _ _ Hit)
    as (est & r & y & c & score & Hej & HLj & _).
  pose proof (for_each_frame (take i (changing_param_values (conf st))) no_locals st)
    as Hfr.
  rewrite Hpre in Hfr; simpl in Hfr.
  assert (Hdata : data (conf sti) = data (conf st)) by (by rewrite Hfr).
  assert (Hlen : length (take i (changing_param_values (conf st))) = i).
  { rewrite length_take. apply lookup_lt_Some in Hi. lia. }
  rewrite Hlen in Hts1, Ht. simpl in Et1.
  split; [|split].
  - apply Hn; [done|]. intros E. by rewrite E in Hi.
  - subst Lj; simpl in Et2. rewrite Et2, Et1, <- app_assoc. simpl.
    rewrite list_lookup_middle by (symmetry; exact Hts1).
    unfold t0, t1, n. by rewrite Hk, Ht, Hns.
  - exists est,
      (ei ++
       [ EvCall (CInit (<[changing_param (conf sti) := v]> (tuned_params (conf sti))))
           None;
         EvCall (CRepr est) None;
         EvPrint (Benchmarking r);
         EvCall (CFit est (X_train (data (conf st))) (y_train (data (conf st)))) None;
         EvCall (CHook est) None;
         EvCall (CComplexity est) None ]),
      ([ EvCall (CScore (y_test (data (conf st))) y) None;
         EvPrint (Summary c (prediction_performance_label (conf sti)) score
                    ((t1 - t0) / inject_Z n)%Q) ] ++ ek).
    split.
    + rewrite Hev, <- !app_assoc. f_equal.
      rewrite Hej. unfold pass_events; simpl.
      unfold t0, t1, n. rewrite Hk, Ht, Hns, Hdata.
      do 7 f_equal. rewrite <- !app_assoc. done.
    + rewrite clock_reads_app, (for_each_clock_reads _ _ _ _ _ _ Hpre), Hlen.
      simpl. lia.
Qed.

Lemma tuned_after_cons key v values p :
  tuned_after key values (<[key := v]> p) = tuned_after key (v :: values) p.
Proof.
  unfold tuned_after. destruct values as [|v' values]; [done|].
  rewrite last_cons_cons. destruct (last (v' :: values)) eqn:E.
  - apply insert_insert_eq.
  - by apply last_None in E.
Qed.

Lemma for_each_conf values : forall L st L',
  res (for_each values L st) = inr L' ->
  conf (final (for_each values L st)) =
  with_tuned_params
    (tuned_after (changing_param (conf st)) values (tuned_params (conf st)))
    (conf st).
Proof.
  induction values as [|v values IH]; intros L st L' Hres.
  - simpl. by destruct (conf st).
  - simpl in *. unfold bind in *.
    pose proof (iteration_conf v L st) as Hc.
    destruct (iteration v L st) as [[e|L1] st1 e1]; simpl in *; [done|].
    erewrite IH by done. rewrite Hc; simpl. by rewrite tuned_after_cons.
Qed.

(** C2, as amended.  When [benchmark_influence] returns, the configuration
    record is the one before the call except for its [tuned_params]
    dictionary, and the dictionary is the one before the call with the
    varying parameter's key set to the last value of the value list (the
    dictionary is unchanged when the list is empty). *)
Theorem conf_after_sweep st pp pt cs :
  res (benchmark_influence st) = inr (pp, pt, cs) ->
  conf (final (benchmark_influence st)) =
  with_tuned_params
    (tuned_after (changing_param (conf st)) (changing_param_values (conf st))
       (tuned_params (conf st)))
    (conf st).
Proof.
  unfold benchmark_influence, bind at 1 3, rd at 1 3; simpl.
  unfold bind. intros Hres.
  pose proof (for_each_conf (changing_param_values (conf st)) no_locals st) as Hc.
  destruct (for_each _ _ st) as [[e|L] st1 e1]; simpl in *; [done|].
  by eapply Hc.
Qed.

(** C8. Whatever a run of [benchmark_influence] does, returning or raising,
    the dataset split [conf['data']] afterwards is the one before: the four
    arrays [X_train], [X_test], [y_train], [y_test] are unchanged. *)
Theorem benchmark_influence_keeps_data st :
  data (conf (final (benchmark_influence st))) = data (conf st).
Proof. by rewrite (benchmark_influence_frame st). Qed.

(** C10. On a configuration whose value list is empty, [benchmark_influence]
    returns three empty sequences, makes no library call (none to the
    constructor, to [fit] or to [predict]), reads no clock, prints nothing
    and leaves the state as it was. *)
Theorem benchmark_influence_empty st :
  changing_param_values (conf st) = [] ->
  benchmark_influence st =
    {| res := inr ([], [], []); final := st; emitted := [] |}.
Proof.
  intros Hnil. unfold benchmark_influence, bind, rd; simpl.
  rewrite Hnil. done.
Qed.

(** C9. [plot_influence] returns a figure, emits no event and leaves the
    state, hence the configuration, as it was.  The figure holds two traces
    over the complexities, the second on the axis [y2]; the title of the
    x axis contains the complexity label, the title of the left y axis is
    the prediction-performance label, and [yaxis2] is the time axis, laid
    over [y] on the right.  The figure is determined by the three series and
    the three labels the function reads. *)
Theorem plot_influence_pure st mse_values times cs :
  exists fig,
    plot_influence mse_values times cs st =
      {| res := inr fig; final := st; emitted := [] |} /\
    map sc_x (fig_data fig) = [cs; cs] /\
    map sc_y (fig_data fig) = [mse_values; times] /\
    map sc_yaxis (fig_data fig) = [None; Some "y2"] /\
    occurs_in (complexity_label (conf st)) (ax_title (lay_xaxis (fig_layout fig))) /\
    ax_title (lay_yaxis (fig_layout fig)) = prediction_performance_label (conf st) /\
    ax_title (lay_yaxis2 (fig_layout fig)) = "Time (s)" /\
    ax_side (lay_yaxis2 (fig_layout fig)) = Some "right" /\
    ax_overlaying (lay_yaxis2 (fig_layout fig)) = Some "y" /\
    forall st2,
      cls_name (estimator (conf st2)) = cls_name (estimator (conf st)) ->
      complexity_label (conf st2) = complexity_label (conf st) ->
      prediction_performance_label (conf st2) =
        prediction_performance_label (conf st) ->
      res (plot_influence mse_values times cs st2) = inr fig.
Proof.
  eexists. split; [reflexivity|]. simpl. repeat split.
  - by exists "Model Complexity (", ")".
  - intros st2 E1 E2 E3. unfold plot_influence, bind, rd, ret; simpl.
    by rewrite E1, E2, E3.
Qed.

(** ** Errors *)

Lemma fails_fast_bind {A B} (m : SM A) (f : A -> SM B) :
  fails_fast m -> (forall a, fails_fast (f a)) -> fails_fast (bind m f).
Proof.
  intros Hm Hf st. unfold bind. specialize (Hm st).
  destruct (m st) as [[e|a] st1 e1]; simpl in *.
  { destruct Hm as [Hq|(pre & k & e' & E & Hq & [= ->])]; [by left|].
    right. by exists pre, k, e'. }
  assert (Hq : quiet e1).
  { destruct Hm as [Hq|(pre & k & e & _ & _ & Hres)]; [done|discriminate]. }
  destruct (Hf a st1) as [Hq2|(pre & k & e & E & Hq2 & Hres)].
  - left. simpl. by apply Forall_app.
  - right. exists (e1 ++ pre), k, e. simpl. rewrite E, app_assoc.
    repeat split; try done. by apply Forall_app.
Qed.

Lemma fails_fast_quiet {A} (m : SM A) :
  (forall st, quiet (emitted (m st))) -> fails_fast m.
Proof. intros Hq st. left. apply Hq. Qed.

Lemma fails_fast_call {A} k (f : Lib A) : fails_fast (call k f).
Proof.
  intros st. unfold call. destruct (f (lib st)) as [[e|a] s']; simpl.
  - right. exists [], k, e. repeat split. constructor.
  - left. simpl. by repeat constructor.
Qed.

Ltac solve_fails_fast :=
  repeat first
    [ apply fails_fast_bind; [|intros]
    | apply fails_fast_call
    | apply fails_fast_quiet; intros ?; by repeat constructor
    | match goal with |- fails_fast (if ?b then _ else _) => destruct b end
    | match goal with |- fails_fast (match ?x with _ => _ end) => destruct x end ].

Lemma fails_fast_predict_loop est n yp : fails_fast (predict_loop est n yp).
Proof.
  revert yp. induction n as [|n IH]; intros yp; simpl; solve_fails_fast; auto.
Qed.

Lemma fails_fast_iteration v L : fails_fast (iteration v L).
Proof. unfold iteration. solve_fails_fast; auto using fails_fast_predict_loop. Qed.

Lemma fails_fast_for_each values L : fails_fast (for_each values L).
Proof.
  revert L. induction values as [|v values IH]; intros L; simpl.
  - solve_fails_fast.
  - apply fails_fast_bind; [apply fails_fast_iteration|auto].
Qed.

Lemma fails_fast_benchmark_influence : fails_fast benchmark_influence.
Proof.
  unfold benchmark_influence.
  apply fails_fast_bind; [solve_fails_fast|intros values].
  apply fails_fast_bind; [apply fails_fast_for_each|intros L]. solve_fails_fast.
Qed.

Lemma snoc_eq_middle {A} (pre post pre' : list A) x y :
  pre ++ x :: post = pre' ++ [y] ->
  (post = [] /\ pre = pre' /\ x = y) \/ x ∈ pre'.
Proof.
  destruct post as [|z post _] using rev_ind.
  - intros E. apply app_inj_tail in E as [-> ->]. by left.
  - intros E. right.
    change (pre ++ x :: post ++ [z]) with (pre ++ (x :: post) ++ [z]) in E.
    rewrite app_assoc in E. apply app_inj_tail in E as [<- _].
    apply elem_of_app. right. apply elem_of_cons. by left.
Qed.

Lemma raised_call_ends_run {A} (o : Outcome State Event A) pre k e post :
  fail_fast o ->
  emitted o = pre ++ EvCall k (Some e) :: post ->
  res o = inl e /\ post = [] /\ quiet pre.
Proof.
  intros [Hq|(pre' & k' & e' & E & Hq & Hres)] Hev.
  - rewrite Hev in Hq. apply Forall_app in Hq as [_ Hq].
    by apply Forall_cons in Hq as [? _].
  - rewrite E in Hev. symmetry in Hev.
    apply snoc_eq_middle in Hev as [(-> & -> & [= <- <-])|Hin]; [done|].
    unfold quiet in Hq. rewrite Forall_forall in Hq. by apply Hq in Hin.
Qed.

(** C7. If a call of [fit] or [predict] made by a run of
    [benchmark_influence] raises [e], then the run raises that same [e], the
    failing call is the last thing the run does (no call, clock reading or
    print follows it: no retry, no recovery), and no call before it had
    raised. *)
Theorem fit_or_predict_error_propagates st pre k e post :
  is_fit_or_predict k = true ->
  emitted (benchmark_influence st) = pre ++ EvCall k (Some e) :: post ->
  res (benchmark_influence st) = inl e /\ post = [] /\ quiet pre.
Proof.
  intros _. apply raised_call_ends_run, fails_fast_benchmark_influence.
Qed.

(** ** Two runs under different clocks *)

Lemma clock_blind_bind {A B} (R : A -> A -> Prop) (R' : B -> B -> Prop)
    (m1 m2 : SM A) (f1 f2 : A -> SM B) :
  clock_blind R m1 m2 ->
  (forall a1 a2, R a1 a2 -> clock_blind R' (f1 a1) (f2 a2)) ->
  clock_blind R' (bind m1 f1) (bind m2 f2).
Proof.
  intros Hm Hf s1 s2 Hs. unfold bind. destruct (Hm s1 s2 Hs) as [Hfin Hres].
  destruct (m1 s1) as [[e1|a1] t1 ev1], (m2 s2) as [[e2|a2] t2 ev2];
    simpl in *; try done.
  by apply Hf.
Qed.

Lemma clock_blind_ret {A} (R : A -> A -> Prop) a1 a2 :
  R a1 a2 -> clock_blind R (ret a1) (ret a2).
Proof. by intros HR s1 s2 Hs. Qed.

Lemma clock_blind_raise {A} (R : A -> A -> Prop) e :
  clock_blind R (raise e) (raise e).
Proof. by intros s1 s2 Hs. Qed.

Lemma clock_blind_rd {A} (f : Conf -> A) : clock_blind eq (rd f) (rd f).
Proof. intros s1 s2 [Hc Hl]. split; [done|]. simpl. by rewrite Hc. Qed.

Lemma clock_blind_set key v :
  clock_blind eq (set_tuned_param key v) (set_tuned_param key v).
Proof. intros s1 s2 [Hc Hl]. split; [|done]. split; simpl; by rewrite ?Hc. Qed.

Lemma clock_blind_call {A} k (f : Lib A) : clock_blind eq (call k f) (call k f).
Proof.
  intros s1 s2 [Hc Hl]. unfold call. rewrite Hl.
  destruct (f (lib s2)) as [[e|a] s']; by repeat split.
Qed.

Lemma clock_blind_time : clock_blind (fun _ _ => True) time_time time_time.
Proof. intros s1 s2 [Hc Hl]. by repeat split. Qed.

Lemma clock_blind_print p1 p2 : clock_blind eq (print p1) (print p2).
Proof. by intros s1 s2 Hs. Qed.

Lemma clock_blind_predict_loop est n yp :
  clock_blind eq (predict_loop est n yp) (predict_loop est n yp).
Proof.
  revert yp. induction n as [|n IH]; intros yp; simpl.
  - by apply clock_blind_ret.
  - eapply clock_blind_bind; [apply clock_blind_rd|intros d ? <-].
    eapply clock_blind_bind; [apply clock_blind_call|intros y ? <-]. apply IH.
Qed.

Lemma clock_blind_iteration v L1 L2 :
  same_but_times L1 L2 ->
  clock_blind same_but_times (iteration v L1) (iteration v L2).
Proof.
  intros (Hp & Hc & Hy). unfold iteration.
  eapply clock_blind_bind; [apply clock_blind_rd|intros key ? <-].
  eapply clock_blind_bind; [apply clock_blind_set|intros _ _ _].
  eapply clock_blind_bind; [apply clock_blind_rd|intros cls ? <-].
  eapply clock_blind_bind; [apply clock_blind_rd|intros kwargs ? <-].
  eapply clock_blind_bind; [apply clock_blind_call|intros est ? <-].
  eapply clock_blind_bind; [apply clock_blind_call|intros r ? <-].
  eapply clock_blind_bind; [apply clock_blind_print|intros _ _ _].
  eapply clock_blind_bind; [apply clock_blind_rd|intros d ? <-].
  eapply clock_blind_bind; [apply clock_blind_call|intros _ _ _].
  eapply clock_blind_bind; [apply clock_blind_rd|intros hook ? <-].
  eapply clock_blind_bind; [apply clock_blind_call|intros _ _ _].
  eapply clock_blind_bind; [apply clock_blind_rd|intros cc ? <-].
  eapply clock_blind_bind; [apply clock_blind_call|intros complexity ? <-].
  eapply clock_blind_bind; [apply clock_blind_time|intros start1 start2 _].
  eapply clock_blind_bind; [apply clock_blind_rd|intros n ? <-].
  rewrite Hy.
  eapply clock_blind_bind; [apply clock_blind_predict_loop|intros yp ? <-].
  eapply clock_blind_bind; [apply clock_blind_time|intros now1 now2 _].
  eapply clock_blind_bind; [apply clock_blind_rd|intros n' ? <-].
  eapply (clock_blind_bind (fun _ _ => True)).
  { destruct (n' =? 0); [apply clock_blind_raise|by apply clock_blind_ret]. }
  intros el1 el2 _.
  eapply clock_blind_bind; [apply clock_blind_rd|intros ppc ? <-].
  eapply clock_blind_bind; [apply clock_blind_rd|intros d' ? <-].
  eapply (clock_blind_bind eq).
  { destruct yp; [by apply clock_blind_ret|apply clock_blind_raise]. }
  intros y ? <-.
  eapply clock_blind_bind; [apply clock_blind_call|intros score ? <-].
  eapply clock_blind_bind; [apply clock_blind_rd|intros label ? <-].
  eapply clock_blind_bind; [apply clock_blind_print|intros _ _ _].
  apply clock_blind_ret. repeat split; simpl; congruence.
Qed.

Lemma clock_blind_for_each values : forall L1 L2,
  same_but_times L1 L2 ->
  clock_blind same_but_times (for_each values L1) (for_each values L2).
Proof.
  induction values as [|v values IH]; intros L1 L2 HL; simpl.
  - by apply clock_blind_ret.
  - eapply clock_blind_bind; [by apply clock_blind_iteration|]. apply IH.
Qed.

Lemma clock_blind_benchmark_influence :
  clock_blind (fun r1 r2 => r1.1.1 = r2.1.1 /\ r1.2 = r2.2)
    benchmark_influence benchmark_influence.
Proof.
  unfold benchmark_influence.
  eapply clock_blind_bind; [apply clock_blind_rd|intros values ? <-].
  eapply clock_blind_bind; [by apply clock_blind_for_each|].
  intros L1 L2 (Hp & Hc & _). apply clock_blind_ret. done.
Qed.

(** C6. Two runs of [benchmark_influence] that start from the same
    configuration and the same library state (same seed, same data) but
    under arbitrary, unrelated wall clocks: if the first returns, so does
    the second, with the same complexity sequence (and the same error
    sequence); only the latencies may differ. *)
Theorem complexities_deterministic st1 st2 pp pt1 cs :
  conf st1 = conf st2 ->
  lib st1 = lib st2 ->
  res (benchmark_influence st1) = inr (pp, pt1, cs) ->
  exists pt2, res (benchmark_influence st2) = inr (pp, pt2, cs).
Proof.
  intros Hc Hl Hres.
  destruct (clock_blind_benchmark_influence st1 st2 (conj Hc Hl)) as [_ Hagree].
  rewrite Hres in Hagree.
  destruct (res (benchmark_influence st2)) as [e|[[pp2 pt2] cs2]]; [done|].
  simpl in Hagree. destruct Hagree as [<- <-]. by exists pt2.
Qed.

(** ** Runs that are certain to return *)

Lemma returns_on_bind {A B} c (P : A -> Prop) (Q : B -> Prop)
    (m : SM A) (f : A -> SM B) :
  returns_on c P m -> (forall a, P a -> returns_on c Q (f a)) ->
  returns_on c Q (bind m f).
Proof.
  intros Hm Hf s Hs. unfold bind. destruct (Hm s Hs) as (a & Hres & Ha & Hfin).
  destruct (m s) as [r s1 e1]; simpl in *; subst r.
  destruct (Hf a Ha s1 Hfin) as (b & Hres & Hb & Hfin'). eauto.
Qed.

Lemma returns_on_ret {A} c (P : A -> Prop) a : P a -> returns_on c P (ret a).
Proof. intros Ha s Hs. eauto. Qed.

Lemma returns_on_ret_any {A} c (a : A) : returns_on c (fun _ => True) (ret a).
Proof. by apply returns_on_ret. Qed.

Lemma returns_on_rd_fixed {A} c (f : Conf -> A) :
  (forall p, f (with_tuned_params p c) = f c) ->
  returns_on c (fun a => a = f c) (rd f).
Proof.
  intros Hf s Hs. exists (f (conf s)). repeat split; [|done].
  rewrite Hs. apply Hf.
Qed.

Lemma returns_on_any {A} c (m : SM A) :
  keeps_conf m -> (forall s, exists a, res (m s) = inr a) ->
  returns_on c (fun _ => True) m.
Proof.
  intros K Hm s Hs. destruct (Hm s) as [a Ha]. exists a.
  repeat split; [done|]. by rewrite (K s).
Qed.

Lemma returns_on_call {A} c k (f : Lib A) :
  never_raises f -> returns_on c (fun _ => True) (call k f).
Proof.
  intros Hf. apply returns_on_any; [done|]. intros s. unfold call; simpl.
  destruct (Hf (lib s)) as (a & s' & ->). eauto.
Qed.

Lemma returns_on_set c key v :
  returns_on c (fun _ => True) (set_tuned_param key v).
Proof.
  intros s Hs. exists tt. repeat split. simpl. rewrite Hs. done.
Qed.

Lemma returns_on_predict_loop c est n yp :
  (forall X, never_raises (est_predict est X)) ->
  returns_on c (fun yp' => n <> O \/ is_Some yp -> is_Some yp')
    (predict_loop est n yp).
Proof.
  intros Hp. revert yp. induction n as [|n IH]; intros yp; simpl.
  - apply returns_on_ret. intros [?|?]; done.
  - eapply returns_on_bind; [apply (returns_on_any _ _ (keeps_conf_rd _)); eauto|].
    intros d _. eapply returns_on_bind; [by apply returns_on_call|].
    intros y _. intros s Hs. destruct (IH (Some y) s Hs) as (a & ? & Ha & ?).
    exists a. repeat split; try done. intros _. apply Ha. right. eauto.
Qed.

Lemma returns_on_iteration c v L :
  library_total c -> 1 <= n_samples c ->
  returns_on c (fun _ => True) (iteration v L).
Proof.
  intros (Hinit & Hrepr & Hfit & Hhook & Hcc & Hpred & Hppc) Hn.
  unfold iteration.
  eapply returns_on_bind; [apply (returns_on_rd_fixed c changing_param); done|].
  intros key _.
  eapply returns_on_bind; [apply returns_on_set|intros _ _].
  eapply returns_on_bind; [apply (returns_on_rd_fixed c estimator); done|].
  intros cls ->.
  eapply returns_on_bind; [apply (returns_on_any _ _ (keeps_conf_rd _)); eauto|].
  intros kwargs _.
  eapply returns_on_bind; [by apply returns_on_call|intros est _].
  eapply returns_on_bind; [by apply returns_on_call|intros r _].
  eapply returns_on_bind; [apply (returns_on_any _ _ (keeps_conf_print _)); eauto|].
  intros _ _.
  eapply returns_on_bind; [apply (returns_on_any _ _ (keeps_conf_rd _)); eauto|].
  intros d _.
  eapply returns_on_bind; [by apply returns_on_call|intros _ _].
  eapply returns_on_bind; [apply (returns_on_rd_fixed c postfit_hook); done|].
  intros hook ->.
  eapply returns_on_bind; [by apply returns_on_call|intros _ _].
  eapply returns_on_bind; [apply (returns_on_rd_fixed c complexity_computer); done|].
  intros cc ->.
  eapply returns_on_bind; [by apply returns_on_call|intros complexity _].
  eapply returns_on_bind; [apply (returns_on_any _ _ keeps_conf_time); eauto|].
  intros start_time _.
  eapply returns_on_bind; [apply (returns_on_rd_fixed c n_samples); done|].
  intros n ->.
  eapply returns_on_bind; [by apply returns_on_predict_loop|].
  intros yp Hyp.
  eapply returns_on_bind; [apply (returns_on_any _ _ keeps_conf_time); eauto|].
  intros now _.
  eapply returns_on_bind; [apply (returns_on_rd_fixed c n_samples); done|].
  intros n' ->.
  destruct (n_samples c =? 0) eqn:En; [apply Z.eqb_eq in En; lia|].
  eapply returns_on_bind; [apply returns_on_ret_any|intros elapsed _].
  eapply returns_on_bind;
    [apply (returns_on_rd_fixed c prediction_performance_computer); done|].
  intros ppc ->.
  eapply returns_on_bind; [apply (returns_on_any _ _ (keeps_conf_rd _)); eauto|].
  intros d' _.
  destruct Hyp as [y ->]; [left; lia|].
  eapply returns_on_bind; [apply returns_on_ret_any|intros ? _].
  eapply returns_on_bind; [by apply returns_on_call|intros score _].
  eapply returns_on_bind; [apply (returns_on_any _ _ (keeps_conf_rd _)); eauto|].
  intros label _.
  eapply returns_on_bind; [apply (returns_on_any _ _ (keeps_conf_print _)); eauto|].
  intros _ _. by apply returns_on_ret.
Qed.

Lemma returns_on_for_each c values : forall L,
  library_total c -> 1 <= n_samples c ->
  returns_on c (fun _ => True) (for_each values L).
Proof.
  induction values as [|v values IH]; intros L Hlib Hn; simpl.
  - by apply returns_on_ret.
  - eapply returns_on_bind; [by apply returns_on_iteration|]. intros L' _. by apply IH.
Qed.

(** When no library function raises and [n_samples] is at least 1,
    [benchmark_influence] returns. *)
Lemma benchmark_influence_returns st :
  library_total (conf st) -> 1 <= n_samples (conf st) ->
  exists pp pt cs, res (benchmark_influence st) = inr (pp, pt, cs).
Proof.
  intros Hlib Hn.
  assert (Hr : returns_on (conf st) (fun _ => True) benchmark_influence).
  { unfold benchmark_influence.
    eapply returns_on_bind; [apply (returns_on_any _ _ (keeps_conf_rd _)); eauto|].
    intros values _.
    eapply returns_on_bind; [by apply returns_on_for_each|intros L _].
    by apply returns_on_ret. }
  destruct (Hr st (same_but_tuned_refl _)) as ([[pp pt] cs] & Hres & _). eauto.
Qed.

End SweepFacts.

(** * Facts about the OOB tracker *)

Module OOBFacts.
Import OOB.

Section TrackerFacts.
Context `{Forest} (X y : Samples).
Implicit Types (d : ErrorRate) (st : OOB.State) (label : string).

Lemma od_get_set_eq key v d : od_get key (od_set key v d) = Some v.
Proof.
  induction d as [|[k w] d IH]; simpl.
  - by rewrite String.eqb_refl.
  - destruct (String.eqb k key) eqn:E; simpl; by rewrite E.
Qed.

Lemma od_get_set_ne key key' v d :
  key <> key' -> od_get key (od_set key' v d) = od_get key d.
Proof.
  intros Hne. induction d as [|[k w] d IH]; simpl.
  - destruct (String.eqb key' key) eqn:E; [|done].
    apply String.eqb_eq in E. congruence.
  - destruct (String.eqb k key') eqn:E; simpl; [|by rewrite IH].
    apply String.eqb_eq in E. subst k.
    destruct (String.eqb key' key) eqn:E'; [|done].
    apply String.eqb_eq in E'. congruence.
Qed.

Lemma od_set_extend key l new d :
  od_get key d = Some l -> od_set key (l ++ new) d = od_extend key new d.
Proof.
  induction d as [|[k w] d IH]; simpl; [done|].
  destruct (String.eqb k key); [by intros [= ->]|]. intros Hg. by rewrite IH.
Qed.

Lemma od_extend_nil key d : od_extend key [] d = d.
Proof.
  induction d as [|[k w] d IH]; simpl; [done|].
  destruct (String.eqb k key); by rewrite ?app_nil_r, ?IH.
Qed.

Lemma od_extend_app key a b d :
  od_extend key b (od_extend key a d) = od_extend key (a ++ b) d.
Proof.
  induction d as [|[k w] d IH]; simpl; [done|].
  destruct (String.eqb k key) eqn:E; simpl; rewrite E.
  - by rewrite app_assoc.
  - by rewrite IH.
Qed.

Lemma od_get_extend_eq key new d :
  od_get key (od_extend key new d) = (fun l => l ++ new) <$> od_get key d.
Proof.
  induction d as [|[k w] d IH]; simpl; [done|].
  destruct (String.eqb k key) eqn:E; simpl; by rewrite E.
Qed.

Lemma od_get_extend_ne key key' new d :
  key <> key' -> od_get key (od_extend key' new d) = od_get key d.
Proof.
  intros Hne. induction d as [|[k w] d IH]; simpl; [done|].
  destruct (String.eqb k key') eqn:E; simpl; [|by rewrite IH].
  apply String.eqb_eq in E. subst k.
  destruct (String.eqb key' key) eqn:E'; [|done].
  apply String.eqb_eq in E'. congruence.
Qed.

Lemma od_get_init label (clfs : list (string * Clf)) : forall d0,
  od_get label (foldl (fun d lc => od_set lc.1 [] d) d0 clfs) =
  if decide (label ∈ clfs.*1) then Some [] else od_get label d0.
Proof.
  induction clfs as [|[l c] clfs IH]; intros d0; simpl; [done|].
  rewrite IH. destruct (decide (label ∈ clfs.*1)) as [Hin|Hnin].
  - rewrite decide_True; [done|]. by apply elem_of_cons; right.
  - destruct (decide (label = l)) as [->|Hne].
    + rewrite decide_True by (apply elem_of_cons; by left).
      apply od_get_set_eq.
    + rewrite decide_False by (rewrite elem_of_cons; tauto).
      by apply od_get_set_ne.
Qed.

(** ** Runs that return *)

Lemma set_params_returns clf i st a st1 e :
  set_params clf i st = {| res := inr a; final := st1; emitted := e |} ->
  error_rate st1 = error_rate st /\ e = [EvSetParams clf i (inr tt)].
Proof.
  unfold set_params. destruct (set_params_n_estimators clf i (flib st)) as [r s'].
  simpl. intros [= -> <- <-]. by destruct a.
Qed.

Lemma fit_returns clf st a st1 e :
  fit clf X y st = {| res := inr a; final := st1; emitted := e |} ->
  error_rate st1 = error_rate st /\ e = [EvFit clf X y (inr tt)].
Proof.
  unfold fit. destruct (clf_fit clf X y (flib st)) as [r s'].
  simpl. intros [= -> <- <-]. by destruct a.
Qed.

Lemma get_oob_score_returns clf st a st1 e :
  get_oob_score clf st = {| res := inr a; final := st1; emitted := e |} ->
  error_rate st1 = error_rate st /\ e = [EvOobScore clf (inr a)].
Proof.
  unfold get_oob_score. destruct (oob_score_ clf (flib st)) as [r s'].
  simpl. by intros [= -> <- <-].
Qed.

Lemma record_error_returns label p st a st1 e :
  record_error label p st = {| res := inr a; final := st1; emitted := e |} ->
  error_rate st1 = od_extend label [p] (error_rate st) /\ e = [].
Proof.
  unfold record_error. destruct (od_get label (error_rate st)) as [l|] eqn:E.
  - intros [= _ <- <-]. simpl. by rewrite (od_set_extend _ _ _ _ E).
  - discriminate.
Qed.

Lemma grow_returns label clf i st a st' evs :
  grow X y label clf i st = {| res := inr a; final := st'; emitted := evs |} ->
  exists s,
    evs = grow_events X y clf (i, s) /\
    error_rate st' = od_extend label [error_pair (i, s)] (error_rate st).
Proof.
  intros Hrun. unfold grow in Hrun.
  apply bind_returns_inv in Hrun as (? & s1 & e1 & ? & H1 & Hrun & ->).
  apply set_params_returns in H1 as [E1 ->].
  apply bind_returns_inv in Hrun as (? & s2 & e2 & ? & H2 & Hrun & ->).
  apply fit_returns in H2 as [E2 ->].
  apply bind_returns_inv in Hrun as (score & s3 & e3 & ? & H3 & Hrun & ->).
  apply get_oob_score_returns in H3 as [E3 ->].
  apply record_error_returns in Hrun as [E4 ->].
  exists score. split; [done|]. by rewrite E4, E3, E2, E1.
Qed.

Lemma for_sizes_returns label clf sizes : forall st a st' evs,
  for_sizes X y label clf sizes st = {| res := inr a; final := st'; emitted := evs |} ->
  exists scores,
    length scores = length sizes /\
    evs = concat (map (grow_events X y clf) (zip sizes scores)) /\
    error_rate st' =
      od_extend label (map error_pair (zip sizes scores)) (error_rate st).
Proof.
  induction sizes as [|i sizes IH]; intros st a st' evs Hrun; simpl in Hrun.
  - injection Hrun as _ <- <-. exists []. by rewrite od_extend_nil.
  - apply bind_returns_inv in Hrun as (? & s1 & e1 & e2 & H1 & Hrun & ->).
    apply grow_returns in H1 as (s & -> & E1).
    apply IH in Hrun as (scores & Hlen & -> & E2).
    exists (s :: scores). simpl. rewrite Hlen, E2, E1, od_extend_app. done.
Qed.

Lemma for_clfs_returns lo hi clfs : forall st a st' evs,
  for_clfs X y clfs lo hi st = {| res := inr a; final := st'; emitted := evs |} ->
  let sizes := range lo (hi + 1) in
  exists scoress,
    length scoress = length clfs /\
    Forall (fun ss => length ss = length sizes) scoress /\
    evs = concat (zip_with (clf_events X y sizes) clfs scoress) /\
    error_rate st' = foldl (clf_record sizes) (error_rate st) (zip clfs scoress).
Proof.
  induction clfs as [|[label clf] clfs IH]; intros st a st' evs Hrun sizes;
    simpl in Hrun.
  - injection Hrun as _ <- <-. exists []. by repeat split.
  - apply bind_returns_inv in Hrun as (? & s1 & e1 & e2 & H1 & Hrun & ->).
    apply for_sizes_returns in H1 as (scores & Hlen & -> & E1).
    apply IH in Hrun as (scoress & Hlens & Hall & -> & E2).
    exists (scores :: scoress). simpl. rewrite Hlens, E2, E1.
    repeat split; try done. by constructor.
Qed.

Lemma od_get_fold_other sizes label (clfs : list (string * Clf)) :
  forall scoress d,
  label ∉ clfs.*1 ->
  od_get label (foldl (clf_record sizes) d (zip clfs scoress)) = od_get label d.
Proof.
  induction clfs as [|[l c] clfs IH]; intros scoress d Hnin; [done|].
  destruct scoress as [|ss scoress]; [done|]. simpl.
  apply not_elem_of_cons in Hnin as [Hne Hnin].
  rewrite IH by done. unfold clf_record; simpl. by apply od_get_extend_ne.
Qed.

Lemma od_get_fold_own sizes label (clfs : list (string * Clf)) :
  forall scoress d l,
  NoDup clfs.*1 -> length scoress = length clfs ->
  label ∈ clfs.*1 -> od_get label d = Some l ->
  exists j clf ss,
    clfs !! j = Some (label, clf) /\ scoress !! j = Some ss /\
    od_get label (foldl (clf_record sizes) d (zip clfs scoress)) =
      Some (l ++ map error_pair (zip sizes ss)).
Proof.
  induction clfs as [|[l0 c] clfs IH]; intros scoress d l Hnd Hlen Hin Hget.
  { by apply elem_of_nil in Hin. }
  destruct scoress as [|ss scoress]; [done|]. simpl in *.
  apply NoDup_cons in Hnd as [Hnin Hnd]. injection Hlen as Hlen.
  destruct (decide (label = l0)) as [->|Hne].
  - exists 0%nat, c, ss. repeat split.
    rewrite od_get_fold_other by done. unfold clf_record; simpl.
    by rewrite od_get_extend_eq, Hget.
  - apply elem_of_cons in Hin as [?|Hin]; [done|].
    destruct (IH scoress (clf_record sizes d (l0, c, ss)) l Hnd Hlen Hin)
      as (j & clf & ss' & Hj & Hs & Hg).
    { unfold clf_record; simpl. by rewrite od_get_extend_ne. }
    by exists (S j), clf, ss'.
Qed.

Lemma concat_middle {A} (ls : list (list A)) j l :
  ls !! j = Some l ->
  concat ls = concat (take j ls) ++ l ++ concat (drop (S j) ls).
Proof.
  intros Hj. rewrite <- (take_drop_middle ls j l Hj) at 1.
  by rewrite concat_app.
Qed.

(** The sequence recorded under a label is made of the pairs
    [(size, 1 - score)], one per size of the range in order, for the scores
    read from that label's classifier after each refit. *)
Lemma track_sequence clfs lo hi s label seq :
  NoDup clfs.*1 ->
  res (track X y clfs lo hi s) = inr tt ->
  od_get label (error_rate (final (track X y clfs lo hi s))) = Some seq ->
  let sizes := range lo (hi + 1) in
  exists clf scores pre post,
    (label, clf) ∈ clfs /\ length scores = length sizes /\
    seq = map error_pair (zip sizes scores) /\
    emitted (track X y clfs lo hi s) =
      pre ++ concat (map (grow_events X y clf) (zip sizes scores)) ++ post.
Proof.
  intros Hnd Hres Hget sizes. unfold track in *.
  set (st0 := {| error_rate := od_init clfs; flib := s |}) in *.
  destruct (for_clfs X y clfs lo hi st0) as [r st' evs] eqn:Hrun.
  simpl in *. subst r.
  apply for_clfs_returns in Hrun as (scoress & Hlen & Hall & -> & E).
  fold sizes in Hall, E |- *. rewrite E in Hget. simpl in Hget.
  destruct (decide (label ∈ clfs.*1)) as [Hin|Hnin].
  - destruct (od_get_fold_own sizes label clfs scoress (od_init clfs) []
                Hnd Hlen Hin) as (j & clf & ss & Hj & Hs & Hg).
    { unfold od_init. rewrite od_get_init. by rewrite decide_True. }
    rewrite Hg in Hget. injection Hget as <-.
    exists clf, ss.
    eexists (concat (take j (zip_with (clf_events X y sizes) clfs scoress))),
            (concat (drop (S j) (zip_with (clf_events X y sizes) clfs scoress))).
    repeat split.
    + by eapply list_elem_of_lookup_2.
    + rewrite Forall_forall in Hall. apply Hall.
      by eapply list_elem_of_lookup_2.
    + apply (concat_middle _ j). rewrite lookup_zip_with, Hj; simpl.
      by rewrite Hs.
  - rewrite od_get_fold_other in Hget by done.
    unfold od_init in Hget. rewrite od_get_init in Hget.
    by rewrite decide_False in Hget.
Qed.

(** ** Runs that are certain to return *)

Lemma keys_kept_extend key new d : keys_kept d (od_extend key new d).
Proof.
  intros k Hk. destruct (decide (k = key)) as [->|Hne].
  - rewrite od_get_extend_eq. destruct Hk as [l ->]. by eexists.
  - by rewrite od_get_extend_ne.
Qed.

Lemma grow_total label clf i st :
  forest_total -> is_Some (od_get label (error_rate st)) ->
  res (grow X y label clf i st) = inr tt /\
  keys_kept (error_rate st) (error_rate (final (grow X y label clf i st))).
Proof.
  intros (Hset & Hfit & Hoob) [l Hl].
  unfold grow, bind, set_params, fit, get_oob_score, record_error; simpl.
  destruct (Hset clf i (flib st)) as [s1 ->]; simpl.
  destruct (Hfit clf X y s1) as [s2 ->]; simpl.
  destruct (Hoob clf s2) as (q & s3 & ->); simpl.
  rewrite Hl; simpl. split; [done|].
  rewrite (od_set_extend _ _ _ _ Hl). apply keys_kept_extend.
Qed.

Lemma for_sizes_total label clf sizes : forall st,
  forest_total -> is_Some (od_get label (error_rate st)) ->
  res (for_sizes X y label clf sizes st) = inr tt /\
  keys_kept (error_rate st) (error_rate (final (for_sizes X y label clf sizes st))).
Proof.
  induction sizes as [|i sizes IH]; intros st Htot Hl; simpl.
  - split; [done|]. by intros k.
  - unfold bind. destruct (grow_total label clf i st Htot Hl) as [Hres Hk].
    destruct (grow X y label clf i st) as [r st1 e1]; simpl in *; subst r.
    destruct (IH st1 Htot (Hk _ Hl)) as [Hres' Hk']. split; [done|].
    intros k Hin. simpl. auto.
Qed.

Lemma for_clfs_total lo hi clfs : forall st,
  forest_total ->
  (forall label, label ∈ clfs.*1 -> is_Some (od_get label (error_rate st))) ->
  res (for_clfs X y clfs lo hi st) = inr tt.
Proof.
  induction clfs as [|[label clf] clfs IH]; intros st Htot Hkeys; simpl; [done|].
  unfold bind.
  destruct (for_sizes_total label clf (range lo (hi + 1)) st Htot) as [Hres Hk].
  { apply Hkeys. simpl. apply elem_of_cons. by left. }
  destruct (for_sizes X y label clf _ st) as [r st1 e1]; simpl in *; subst r.
  apply IH; [done|]. intros l Hl. apply Hk, Hkeys. simpl. apply elem_of_cons.
  by right.
Qed.

(** When none of the library functions raises, the tracking loop returns. *)
Lemma track_returns clfs lo hi s :
  forest_total -> res (track X y clfs lo hi s) = inr tt.
Proof.
  intros Htot. unfold track. apply for_clfs_total; [done|].
  intros label Hl. simpl. unfold od_init. rewrite od_get_init.
  by rewrite decide_True.
Qed.

(** ** The claims about the tracker *)

(** C3. When the tracking loop returns, the sequence recorded under each
    label of [error_rate] has exactly [max_estimators - min_estimators + 1]
    entries; their first components are the ensemble sizes from
    [min_estimators] to [max_estimators], in order, and their second
    components are [1 - oob_score_] for the scores read from the label's
    classifier after it was set to that size and refitted.  The labels of
    [ensemble_clfs] are pairwise distinct and the range is not reversed, as
    in the notebook. *)
Theorem oob_sequence_length clfs lo hi s label seq :
  NoDup clfs.*1 ->
  lo <= hi + 1 ->
  res (track X y clfs lo hi s) = inr tt ->
  od_get label (error_rate (final (track X y clfs lo hi s))) = Some seq ->
  Z.of_nat (length seq) = hi - lo + 1 /\
  seq.*1 = seqZ lo (hi - lo + 1) /\
  exists clf scores pre post,
    (label, clf) ∈ clfs /\ length scores = length seq /\
    seq = map error_pair (zip (seqZ lo (hi - lo + 1)) scores) /\
    emitted (track X y clfs lo hi s) =
      pre ++
      concat (map (grow_events X y clf) (zip (seqZ lo (hi - lo + 1)) scores)) ++
      post.
Proof.
  intros Hnd Hle Hres Hget.
  destruct (track_sequence clfs lo hi s label seq Hnd Hres Hget)
    as (clf & scores & pre & post & Hin & Hlen & -> & Hev).
  unfold range in *. replace (hi + 1 - lo) with (hi - lo + 1) in * by lia.
  rewrite length_seqZ in Hlen.
  assert (Hl : length (zip (seqZ lo (hi - lo + 1)) scores) = Z.to_nat (hi - lo + 1)).
  { rewrite length_zip_with, length_seqZ. lia. }
  rewrite length_map, Hl. split; [lia|]. split.
  - rewrite <- list_fmap_compose.
    replace (fst ∘ error_pair) with (fst : Z * Q -> Z) by done.
    apply fst_zip. rewrite length_seqZ. lia.
  - exists clf, scores, pre, post. repeat split; try done; lia.
Qed.

(** C4. When the tracking loop returns, the ensemble sizes of the sequence
    recorded under each label never decrease along the sequence.  (Nothing
    is said of the error values.) *)
Theorem oob_sizes_nondecreasing clfs lo hi s label seq :
  NoDup clfs.*1 ->
  res (track X y clfs lo hi s) = inr tt ->
  od_get label (error_rate (final (track X y clfs lo hi s))) = Some seq ->
  forall i j a b, (i <= j)%nat ->
    seq.*1 !! i = Some a -> seq.*1 !! j = Some b -> a <= b.
Proof.
  intros Hnd Hres Hget.
  destruct (track_sequence clfs lo hi s label seq Hnd Hres Hget)
    as (clf & scores & pre & post & Hin & Hlen & -> & Hev).
  rewrite <- list_fmap_compose.
  replace (fst ∘ error_pair) with (fst : Z * Q -> Z) by done.
  rewrite fst_zip by lia. unfold range.
  intros i j a b Hij Ha Hb.
  apply lookup_seqZ in Ha as [-> _]. apply lookup_seqZ in Hb as [-> _]. lia.
Qed.

(** ** Runs that raise *)

Lemma grow_keys_kept label clf i st :
  keys_kept (error_rate st) (error_rate (final (grow X y label clf i st))).
Proof.
  unfold grow, bind, set_params, fit, get_oob_score, record_error; simpl.
  destruct (set_params_n_estimators clf i (flib st)) as [[e1|[]] s1]; simpl;
    [by intros k|].
  destruct (clf_fit clf X y s1) as [[e2|[]] s2]; simpl; [by intros k|].
  destruct (oob_score_ clf s2) as [[e3|q] s3]; simpl; [by intros k|].
  destruct (od_get label (error_rate st)) as [l|] eqn:Hl; simpl; [|by intros k].
  rewrite (od_set_extend _ _ _ _ Hl). apply keys_kept_extend.
Qed.

Lemma grow_raises label clf i st e :
  is_Some (od_get label (error_rate st)) ->
  res (grow X y label clf i st) = inl e ->
  exists pre ev, emitted (grow X y label clf i st) = pre ++ [ev] /\ raised_by ev e.
Proof.
  intros [l Hl].
  unfold grow, bind, set_params, fit, get_oob_score, record_error; simpl.
  destruct (set_params_n_estimators clf i (flib st)) as [[e1|[]] s1]; simpl.
  { intros [= ->]. by eexists [], _. }
  destruct (clf_fit clf X y s1) as [[e2|[]] s2]; simpl.
  { intros [= ->]. by eexists [_], _. }
  destruct (oob_score_ clf s2) as [[e3|q] s3]; simpl.
  { intros [= ->]. by eexists [_; _], _. }
  by rewrite Hl.
Qed.

Lemma for_sizes_keys_kept label clf sizes : forall st,
  keys_kept (error_rate st) (error_rate (final (for_sizes X y label clf sizes st))).
Proof.
  induction sizes as [|i sizes IH]; intros st; simpl; [by intros k|].
  unfold bind. pose proof (grow_keys_kept label clf i st) as Hk.
  destruct (grow X y label clf i st) as [[e|[]] st1 e1]; simpl in *; [done|].
  intros k Hin. by apply IH, Hk.
Qed.

Lemma for_sizes_raises label clf sizes : forall st e,
  is_Some (od_get label (error_rate st)) ->
  res (for_sizes X y label clf sizes st) = inl e ->
  exists pre ev,
    emitted (for_sizes X y label clf sizes st) = pre ++ [ev] /\ raised_by ev e.
Proof.
  induction sizes as [|i sizes IH]; intros st e Hl; simpl; [done|].
  unfold bind. pose proof (grow_keys_kept label clf i st) as Hk.
  pose proof (grow_raises label clf i st) as Hr.
  destruct (grow X y label clf i st) as [[e'|[]] st1 e1]; simpl in *.
  - intros [= ->]. by apply Hr.
  - intros Hres. destruct (IH st1 e (Hk _ Hl) Hres) as (pre & ev & -> & Hev).
    exists (e1 ++ pre), ev. by rewrite app_assoc.
Qed.

Lemma for_clfs_raises lo hi clfs : forall st e,
  (forall label, label ∈ clfs.*1 -> is_Some (od_get label (error_rate st))) ->
  res (for_clfs X y clfs lo hi st) = inl e ->
  exists pre ev,
    emitted (for_clfs X y clfs lo hi st) = pre ++ [ev] /\ raised_by ev e.
Proof.
  induction clfs as [|[label clf] clfs IH]; intros st e Hkeys; simpl; [done|].
  unfold bind.
  assert (Hl : is_Some (od_get label (error_rate st))).
  { apply Hkeys. simpl. apply elem_of_cons. by left. }
  pose proof (for_sizes_keys_kept label clf (range lo (hi + 1)) st) as Hk.
  pose proof (for_sizes_raises label clf (range lo (hi + 1)) st) as Hr.
  destruct (for_sizes X y label clf _ st) as [[e'|[]] st1 e1]; simpl in *.
  - intros [= ->]. by apply Hr.
  - intros Hres. destruct (IH st1 e) as (pre & ev & -> & Hev); [|done|].
    { intros l Hin. apply Hk, Hkeys. simpl. apply elem_of_cons. by right. }
    exists (e1 ++ pre), ev. by rewrite app_assoc.
Qed.

(** X14. Every exception of the tracking loop is the exception of a library
    call ([set_params], [fit] or the read of [oob_score_]), and that call is
    the last event of the run: the lookup [error_rate[label]] never fails,
    and nothing is retried. *)
Theorem tracker_exceptions_come_from_the_library clfs lo hi s e :
  res (track X y clfs lo hi s) = inl e ->
  exists pre ev,
    emitted (track X y clfs lo hi s) = pre ++ [ev] /\ raised_by ev e.
Proof.
  unfold track. apply for_clfs_raises. intros label Hl. simpl.
  unfold od_init. rewrite od_get_init. by rewrite decide_True.
Qed.

(** ** What is recorded, whether the loop returns or raises *)

Lemma grow_any label clf i st :
  exists scores,
    (length scores <= 1)%nat /\
    error_rate (final (grow X y label clf i st)) =
      od_extend label (map error_pair (zip [i] scores)) (error_rate st) /\
    (res (grow X y label clf i st) = inr tt -> length scores = 1%nat).
Proof.
  unfold grow, bind, set_params, fit, get_oob_score, record_error; simpl.
  destruct (set_params_n_estimators clf i (flib st)) as [[e1|[]] s1]; simpl.
  { exists []. simpl. rewrite od_extend_nil. split; [lia|by split]. }
  destruct (clf_fit clf X y s1) as [[e2|[]] s2]; simpl.
  { exists []. simpl. rewrite od_extend_nil. split; [lia|by split]. }
  destruct (oob_score_ clf s2) as [[e3|q] s3]; simpl.
  { exists []. simpl. rewrite od_extend_nil. split; [lia|by split]. }
  destruct (od_get label (error_rate st)) as [l|] eqn:Hl; simpl.
  - exists [q]. simpl. rewrite (od_set_extend _ _ _ _ Hl). split; [lia|by split].
  - exists []. simpl. rewrite od_extend_nil. split; [lia|by split].
Qed.

Lemma for_sizes_any label clf sizes : forall st,
  exists scores,
    (length scores <= length sizes)%nat /\
    error_rate (final (for_sizes X y label clf sizes st)) =
      od_extend label (map error_pair (zip sizes scores)) (error_rate st).
Proof.
  induction sizes as [|i sizes IH]; intros st; simpl.
  - exists []. simpl. by rewrite od_extend_nil.
  - unfold bind. destruct (grow_any label clf i st) as (sc & Hlen & Her & Hres).
    destruct (grow X y label clf i st) as [[e|[]] st1 e1]; simpl in *.
    + exists sc. split; [lia|]. rewrite Her. f_equal. f_equal.
      destruct sc as [|q [|q' sc]]; simpl in *; [done|by destruct sizes|lia].
    + specialize (Hres eq_refl). destruct sc as [|q [|q' sc]]; try done.
      destruct (IH st1) as (scores & Hlen' & ->).
      exists (q :: scores). simpl. split; [lia|].
      by rewrite Her, od_extend_app.
Qed.

Lemma foldl_clf_record_nil sizes (clfs : list (string * Clf)) : forall d,
  foldl (clf_record sizes) d (zip clfs (replicate (length clfs) [])) = d.
Proof.
  induction clfs as [|[l c] clfs IH]; intros d; simpl; [done|].
  rewrite IH. unfold clf_record; simpl. by rewrite zip_with_nil_r, od_extend_nil.
Qed.

Lemma for_clfs_any lo hi clfs : forall st,
  let sizes := range lo (hi + 1) in
  exists scoress,
    length scoress = length clfs /\
    Forall (fun ss => (length ss <= length sizes)%nat) scoress /\
    error_rate (final (for_clfs X y clfs lo hi st)) =
      foldl (clf_record sizes) (error_rate st) (zip clfs scoress).
Proof.
  induction clfs as [|[label clf] clfs IH]; intros st sizes; simpl.
  - exists []. by repeat split.
  - unfold bind. destruct (for_sizes_any label clf sizes st) as (sc & Hlen & Her).
    fold sizes.
    destruct (for_sizes X y label clf sizes st) as [[e|[]] st1 e1]; simpl in *.
    + exists (sc :: replicate (length clfs) []). simpl.
      rewrite length_replicate. split; [done|]. split.
      * constructor; [done|]. apply Forall_replicate. simpl. lia.
      * rewrite foldl_clf_record_nil. by rewrite Her.
    + destruct (IH st1) as (scoress & Hlens & Hall & ->).
      exists (sc :: scoress). simpl. rewrite Hlens.
      repeat split; [by constructor|]. by rewrite Her.
Qed.

Lemma fst_zip_take {A B} (l : list A) (k : list B) :
  (zip l k).*1 = take (length k) l.
Proof.
  revert k. induction l as [|a l IH]; intros [|b k]; simpl; try done.
  by rewrite IH.
Qed.

Lemma fst_error_pairs (ps : list (Z * Q)) : (map error_pair ps).*1 = ps.*1.
Proof. induction ps as [|[i q] ps IH]; [done|]. cbn. f_equal. exact IH. Qed.

(** X15. Whether the tracking loop returns or raises, the ensemble sizes
    recorded under each label are an initial segment of the range
    [min_estimators .. max_estimators]: what a failed run leaves in
    [error_rate] is still in order and without gaps.  (Labels pairwise
    distinct.) *)
Theorem recorded_sizes_are_a_prefix clfs lo hi s label seq :
  NoDup clfs.*1 ->
  od_get label (error_rate (final (track X y clfs lo hi s))) = Some seq ->
  exists n, seq.*1 = take n (seqZ lo (hi - lo + 1)).
Proof.
  intros Hnd Hget. unfold track in Hget.
  destruct (for_clfs_any lo hi clfs {| error_rate := od_init clfs; flib := s |})
    as (scoress & Hlen & Hall & Her).
  rewrite Her in Hget. simpl in Hget.
  destruct (decide (label ∈ clfs.*1)) as [Hin|Hnin].
  - destruct (od_get_fold_own (range lo (hi + 1)) label clfs scoress (od_init clfs) []
                Hnd Hlen Hin) as (j & clf & ss & Hj & Hs & Hg).
    { unfold od_init. rewrite od_get_init. by rewrite decide_True. }
    rewrite Hg in Hget. injection Hget as <-. simpl.
    exists (length ss). rewrite fst_error_pairs, fst_zip_take. unfold range.
    by replace (hi + 1 - lo) with (hi - lo + 1) by lia.
  - rewrite od_get_fold_other in Hget by done.
    unfold od_init in Hget. rewrite od_get_init in Hget.
    by rewrite decide_False in Hget.
Qed.


(** ** Labels that occur more than once *)

Lemma od_get_fold_all sizes label (clfs : list (string * Clf)) :
  forall scoress d l,
  od_get label d = Some l ->
  od_get label (foldl (clf_record sizes) d (zip clfs scoress)) =
    Some (l ++ concat (zip_with
                         (fun lc ss => if decide (lc.1 = label)
                                       then map error_pair (zip sizes ss) else [])
                         clfs scoress)).
Proof.
  induction clfs as [|[l0 c] clfs IH]; intros scoress d l Hget; simpl.
  { by rewrite app_nil_r. }
  destruct scoress as [|ss scoress]; simpl; [by rewrite app_nil_r|].
  unfold clf_record at 2; simpl. destruct (decide (l0 = label)) as [->|Hne].
  - erewrite IH; [|by rewrite od_get_extend_eq, Hget]. by rewrite app_assoc.
  - erewrite IH; [done|]. by rewrite od_get_extend_ne.
Qed.

Lemma contributed_sizes sizes label (clfs : list (string * Clf)) :
  forall scoress,
  length scoress = length clfs ->
  Forall (fun ss => length ss = length sizes) scoress ->
  (concat (zip_with
             (fun lc ss => if decide (lc.1 = label)
                           then map error_pair (zip sizes ss) else [])
             clfs scoress)).*1 =
  concat (replicate (occurrences label clfs) sizes).
Proof.
  unfold occurrences.
  induction clfs as [|[l0 c] clfs IH]; intros [|ss scoress] Hlen Hall;
    simpl in *; try done.
  apply Forall_cons in Hall as [Hss Hall]. injection Hlen as Hlen.
  rewrite fmap_app, (IH _ Hlen Hall). destruct (decide (l0 = label)) as [->|Hne].
  - rewrite filter_cons_True by done. simpl. f_equal.
    rewrite fst_error_pairs. apply fst_zip. lia.
  - by rewrite filter_cons_False by done.
Qed.

(** X16. When the tracking loop returns, the ensemble sizes recorded under a
    label are the range [min_estimators .. max_estimators] repeated once for
    every entry of [ensemble_clfs] that carries this label: entries sharing
    a label append to one and the same sequence. *)
Theorem recorded_sizes_with_repeated_labels clfs lo hi s label seq :
  res (track X y clfs lo hi s) = inr tt ->
  od_get label (error_rate (final (track X y clfs lo hi s))) = Some seq ->
  seq.*1 = concat (replicate (occurrences label clfs) (seqZ lo (hi - lo + 1))).
Proof.
  intros Hres Hget. unfold track in *.
  set (st0 := {| error_rate := od_init clfs; flib := s |}) in *.
  destruct (for_clfs X y clfs lo hi st0) as [r st' evs] eqn:Hrun.
  simpl in *. subst r.
  apply for_clfs_returns in Hrun as (scoress & Hlen & Hall & _ & E).
  rewrite E in Hget. simpl in Hget.
  destruct (decide (label ∈ clfs.*1)) as [Hin|Hnin].
  - erewrite od_get_fold_all in Hget.
    2: { unfold od_init. rewrite od_get_init. by rewrite decide_True. }
    injection Hget as <-. simpl. rewrite (contributed_sizes _ _ _ _ Hlen Hall).
    unfold range. by replace (hi + 1 - lo) with (hi - lo + 1) by lia.
  - rewrite od_get_fold_other in Hget by done.
    unfold od_init in Hget. rewrite od_get_init in Hget.
    by rewrite decide_False in Hget.
Qed.

(** ** The plotting cell *)

Lemma plot_traces_ok items : forall data,
  Forall (fun it => it.2 <> []) items ->
  plot_traces items data = inr (data ++ map trace_of items).
Proof.
  induction items as [|[label clf_err] items IH]; intros data Hall; simpl.
  { by rewrite app_nil_r. }
  apply Forall_cons in Hall as [Hne Hall]. simpl in Hne.
  destruct clf_err as [|p clf_err]; [done|]. simpl.
  rewrite IH by done. by rewrite <- app_assoc.
Qed.

Lemma plot_traces_error items : forall data,
  Exists (fun it => it.2 = []) items ->
  plot_traces items data = inl ValueError.
Proof.
  induction items as [|[label clf_err] items IH]; intros data Hex.
  { by apply Exists_nil in Hex. }
  simpl. destruct clf_err as [|p clf_err]; [done|]. simpl.
  apply Exists_cons in Hex as [?|Hex]; [done|]. by apply IH.
Qed.

(** X17. The plotting cell raises [ValueError] exactly when some label of
    [error_rate] has an empty sequence (the unpacking of the transposed
    sequence finds nothing to unpack); otherwise it returns a figure with
    one trace per label, in the order of [error_rate], whose abscissae are
    the recorded sizes and whose ordinates are the recorded errors. *)
Theorem plot_cell_result error_rate :
  (Exists (fun it => it.2 = []) error_rate /\
   plot_cell error_rate = inl ValueError) \/
  (Forall (fun it => it.2 <> []) error_rate /\
   exists fig,
     plot_cell error_rate = inr fig /\
     of_data fig = map trace_of error_rate /\
     pl_xaxis_title (of_layout fig) = "n_estimators" /\
     pl_yaxis_title (of_layout fig) = "OOB error rate").
Proof.
  unfold plot_cell.
  destruct (decide (Exists (fun it : string * list (Z * Q) => it.2 = []) error_rate))
    as [Hex|Hnex].
  - left. split; [done|]. by rewrite plot_traces_error.
  - right. apply not_Exists_Forall in Hnex; [|intros it; apply _].
    split; [done|]. rewrite plot_traces_ok by done. eexists. by repeat split.
Qed.

(** ** The tracking loop followed by the plotting cell *)

Lemma od_extend_keys key new d : (od_extend key new d).*1 = d.*1.
Proof.
  induction d as [|[k l] d IH]; [done|]. simpl.
  destruct (String.eqb k key); [done|]. cbn. f_equal. exact IH.
Qed.

Lemma foldl_clf_record_keys sizes (zs : list ((string * Clf) * list Q)) :
  forall d, (foldl (clf_record sizes) d zs).*1 = d.*1.
Proof.
  induction zs as [|z zs IH]; intros d; simpl; [done|].
  rewrite IH. apply od_extend_keys.
Qed.

Lemma od_set_fresh key v d : key ∉ d.*1 -> od_set key v d = d ++ [(key, v)].
Proof.
  induction d as [|[k w] d IH]; intros Hnin; simpl; [done|].
  cbn in Hnin. apply not_elem_of_cons in Hnin as [Hne Hnin].
  destruct (String.eqb k key) eqn:E.
  - apply String.eqb_eq in E. congruence.
  - by rewrite IH.
Qed.

Lemma od_init_fresh (clfs : list (string * Clf)) : forall d0,
  NoDup (d0.*1 ++ clfs.*1) ->
  foldl (fun d lc => od_set lc.1 [] d) d0 clfs =
  d0 ++ map (fun lc => (lc.1, [])) clfs.
Proof.
  induction clfs as [|[l c] clfs IH]; intros d0 Hnd; simpl.
  { by rewrite app_nil_r. }
  cbn in Hnd. apply NoDup_app in Hnd as (Hd0 & Hdisj & Hcl).
  apply NoDup_cons in Hcl as [Hl Hcl].
  rewrite od_set_fresh.
  2: { intros Hin. apply (Hdisj _ Hin). apply elem_of_cons. by left. }
  rewrite IH.
  - by rewrite <- app_assoc.
  - rewrite fmap_app. cbn. rewrite <- app_assoc. simpl.
    apply NoDup_app. repeat split; [done| |by apply NoDup_cons].
    intros k Hk Hin. apply elem_of_cons in Hin as [->|Hin]; [|].
    + apply (Hdisj _ Hk). apply elem_of_cons. by left.
    + apply (Hdisj _ Hk). apply elem_of_cons. by right.
Qed.

Lemma od_get_elem key v d : NoDup d.*1 -> (key, v) ∈ d -> od_get key d = Some v.
Proof.
  induction d as [|[k w] d IH]; intros Hnd Hin; [by apply elem_of_nil in Hin|].
  cbn in Hnd. apply NoDup_cons in Hnd as [Hk Hnd]. simpl.
  apply elem_of_cons in Hin as [[= -> ->]|Hin].
  - by rewrite String.eqb_refl.
  - destruct (String.eqb k key) eqn:E; [|by apply IH].
    apply String.eqb_eq in E. subst k. exfalso. apply Hk.
    by apply (list_elem_of_fmap_2 fst _ (key, v)).
Qed.

Lemma track_keys clfs lo hi s :
  NoDup clfs.*1 ->
  (error_rate (final (track X y clfs lo hi s))).*1 = clfs.*1.
Proof.
  intros Hnd. unfold track.
  destruct (for_clfs_any lo hi clfs {| error_rate := od_init clfs; flib := s |})
    as (scoress & _ & _ & ->).
  rewrite foldl_clf_record_keys. simpl. unfold od_init.
  rewrite od_init_fresh by done. simpl. rewrite <- list_fmap_compose.
  by apply list_fmap_ext.
Qed.

(** X18. When the tracking loop returns on pairwise distinct labels and a
    non-empty range, the plotting cell returns a figure with one trace per
    entry of [ensemble_clfs], named by the labels in their order; every
    trace has the sizes [min_estimators .. max_estimators] as abscissae and
    as many ordinates. *)
Theorem tracker_then_plot clfs lo hi s :
  NoDup clfs.*1 ->
  lo <= hi ->
  res (track X y clfs lo hi s) = inr tt ->
  exists fig,
    plot_cell (error_rate (final (track X y clfs lo hi s))) = inr fig /\
    map tr_name (of_data fig) = clfs.*1 /\
    Forall (fun t => tr_x t = seqZ lo (hi - lo + 1) /\
                     length (tr_y t) = length (tr_x t)) (of_data fig).
Proof.
  intros Hnd Hle Hres.
  pose proof (track_keys clfs lo hi s Hnd) as Hkeys.
  set (er := error_rate (final (track X y clfs lo hi s))) in *.
  assert (Hitems : Forall (fun it : string * list (Z * Q) =>
            it.2.*1 = seqZ lo (hi - lo + 1) /\ it.2 <> []) er).
  { apply Forall_forall. intros [label seq] Hin. simpl.
    assert (Hget : od_get label er = Some seq).
    { apply od_get_elem; [by rewrite Hkeys|done]. }
    destruct (track_sequence clfs lo hi s label seq Hnd Hres Hget)
      as (clf & scores & pre & post & _ & Hlen & -> & _).
    unfold range in *. replace (hi + 1 - lo) with (hi - lo + 1) in * by lia.
    rewrite length_seqZ in Hlen. split.
    - rewrite fst_error_pairs. apply fst_zip. rewrite length_seqZ. lia.
    - intros Hnil. apply (f_equal length) in Hnil.
      rewrite length_map, length_zip_with, length_seqZ in Hnil. simpl in Hnil. lia. }
  unfold plot_cell. rewrite plot_traces_ok.
  2: { eapply Forall_impl; [exact Hitems|]. by intros it [_ ?]. }
  eexists. split; [reflexivity|]. simpl. split.
  - rewrite <- Hkeys. rewrite <- list_fmap_compose. by apply list_fmap_ext.
  - apply Forall_fmap. eapply Forall_impl; [exact Hitems|].
    intros [label seq] [Hx _]. simpl in *. split; [done|].
    by rewrite !length_fmap.
Qed.

Lemma for_clfs_empty_range lo hi clfs : forall st,
  hi < lo ->
  for_clfs X y clfs lo hi st = {| res := inr tt; final := st; emitted := [] |}.
Proof.
  intros st Hlt. induction clfs as [|[label clf] clfs IH]; simpl; [done|].
  unfold range. rewrite seqZ_nil by lia. simpl. unfold bind; simpl.
  by rewrite IH.
Qed.

Lemma od_init_head l (clfs : list (string * Clf)) : forall d,
  exists d',
    foldl (fun d lc => od_set lc.1 [] d) ((l, []) :: d) clfs = (l, []) :: d'.
Proof.
  induction clfs as [|[l' c] clfs IH]; intros d; simpl; [by eexists|].
  destruct (String.eqb l l'); apply IH.
Qed.

(** X19. With [max_estimators < min_estimators] the range is empty: the tracking
    loop returns at once, without a single library call, leaving every label
    with an empty sequence, and the plotting cell then raises [ValueError]
    (when there is at least one classifier). *)
Theorem empty_range_breaks_the_plot clfs lo hi s :
  hi < lo ->
  clfs <> [] ->
  track X y clfs lo hi s =
    {| res := inr tt;
       final := {| error_rate := od_init clfs; flib := s |};
       emitted := [] |} /\
  plot_cell (od_init clfs) = inl ValueError.
Proof.
  intros Hlt Hne. split; [by apply for_clfs_empty_range|].
  destruct clfs as [|[l c] clfs]; [done|].
  unfold od_init. simpl. destruct (od_init_head l clfs []) as [d' ->].
  reflexivity.
Qed.


Lemma od_get_is_Some_keys key d : is_Some (od_get key d) <-> key ∈ d.*1.
Proof.
  induction d as [|[k l] d IH]; simpl.
  - split; [by intros [? ?]|by intros ?%elem_of_nil].
  - cbn. rewrite elem_of_cons. destruct (String.eqb k key) eqn:E.
    + apply String.eqb_eq in E. subst k. split; [by left|by eexists].
    + apply String.eqb_neq in E. rewrite IH. split; [by right|].
      by intros [?|?].
Qed.

(** X20. Whether the tracking loop returns or raises, the keys of [error_rate]
    afterwards are exactly the labels of [ensemble_clfs]: no label is lost
    and none is added. *)
Theorem tracked_labels clfs lo hi s label :
  is_Some (od_get label (error_rate (final (track X y clfs lo hi s)))) <->
  label ∈ clfs.*1.
Proof.
  unfold track.
  destruct (for_clfs_any lo hi clfs {| error_rate := od_init clfs; flib := s |})
    as (scoress & _ & _ & ->).
  rewrite od_get_is_Some_keys, foldl_clf_record_keys. simpl.
  rewrite <- od_get_is_Some_keys. unfold od_init. rewrite od_get_init.
  destruct (decide (label ∈ clfs.*1)) as [Hin|Hnin].
  - split; [done|]. intros _. by eexists.
  - split; [by intros [? ?]|done].
Qed.


End TrackerFacts.

End OOBFacts.

(** * Edge behaviour of the sweep *)

Section SweepEdges.
Context `{Sklearn}.
Implicit Types (st : State) (c : Conf) (L : Locals) (v : PyVal).

(** ** A number of repetitions that is not positive *)

Lemma bind_then {A B} (m : SM A) (f : A -> SM B) st a st1 e1 r st2 e2 :
  m st = {| res := inr a; final := st1; emitted := e1 |} ->
  f a st1 = {| res := r; final := st2; emitted := e2 |} ->
  bind m f st = {| res := r; final := st2; emitted := e1 ++ e2 |}.
Proof. unfold bind. intros -> E. simpl. by rewrite E. Qed.

Lemma bind_raises_then {A B} (m : SM A) (f : A -> SM B) st e st1 e1 :
  m st = {| res := inl e; final := st1; emitted := e1 |} ->
  bind m f st = {| res := inl e; final := st1; emitted := e1 |}.
Proof. unfold bind. by intros ->. Qed.

Lemma call_run {A} k (f : Lib A) st a s' :
  f (lib st) = (inr a, s') ->
  call k f st =
    {| res := inr a;
       final := {| conf := conf st; lib := s'; clock := clock st; ticks := ticks st |};
       emitted := [EvCall k None] |}.
Proof. unfold call. by intros ->. Qed.

Ltac step_prim := eapply bind_then; [reflexivity|].
Ltac step_call E := eapply bind_then; [apply call_run, E|].

Lemma iteration_aborts v L st :
  library_total (conf st) -> n_samples (conf st) <= 0 -> y_pred L = None ->
  let c := with_tuned_params
             (<[changing_param (conf st) := v]> (tuned_params (conf st))) (conf st) in
  exists est r st',
    iteration v L st =
      {| res := inl (own_error (n_samples (conf st)));
         final := st';
         emitted := aborted_pass_events c est r
                      (clock st (ticks st)) (clock st (S (ticks st))) |}.
Proof.
  intros (Hinit & Hrepr & Hfit & Hhook & Hcc & Hpred & Hppc) Hn Hy c.
  destruct (Hinit (<[changing_param (conf st) := v]> (tuned_params (conf st)))
              (lib st)) as (est & s1 & E1).
  destruct (Hrepr est s1) as (r & s2 & E2).
  destruct (Hfit est (X_train (data (conf st))) (y_train (data (conf st))) s2)
    as ([] & s3 & E3).
  destruct (Hhook est s3) as ([] & s4 & E4).
  destruct (Hcc est s4) as (complexity & s5 & E5).
  exists est, r.
  assert (exists st' evs,
    iteration v L st =
      {| res := inl (own_error (n_samples (conf st))); final := st'; emitted := evs |} /\
    evs = aborted_pass_events c est r (clock st (ticks st)) (clock st (S (ticks st))))
    as (st' & evs & Hit & ->); [|by exists st'].
  unfold own_error.
  assert (Hto : Z.to_nat (n_samples (conf st)) = 0%nat) by (apply Z2Nat.nonpos, Hn).
  destruct (n_samples (conf st) =? 0) eqn:En; eexists _, _.
  - split.
    + unfold iteration. do 4 step_prim.
      step_call E1. step_call E2. do 2 step_prim. step_call E3. step_prim.
      step_call E4. step_prim. step_call E5. do 2 step_prim.
      cbn [conf lib clock ticks n_samples with_tuned_params].
      rewrite Hto, Hy. cbn [predict_loop]. do 3 step_prim.
      cbn [conf lib clock ticks n_samples with_tuned_params]. rewrite En.
      eapply bind_raises_then. reflexivity.
    + reflexivity.
  - split.
    + unfold iteration. do 4 step_prim.
      step_call E1. step_call E2. do 2 step_prim. step_call E3. step_prim.
      step_call E4. step_prim. step_call E5. do 2 step_prim.
      cbn [conf lib clock ticks n_samples with_tuned_params].
      rewrite Hto, Hy. cbn [predict_loop]. do 3 step_prim.
      cbn [conf lib clock ticks n_samples with_tuned_params]. rewrite En.
      do 3 step_prim. eapply bind_raises_then. reflexivity.
    + reflexivity.
Qed.

(** X1. With [n_samples <= 0] and a library that does not raise,
    [benchmark_influence] on a non-empty value list builds and fits the first
    estimator, computes its complexity, reads the clock twice without any
    call of [predict] in between, and then raises: [ZeroDivisionError] when
    [n_samples = 0], [UnboundLocalError] (for [y_pred]) when it is
    negative. *)
Theorem nonpositive_n_samples_error st v rest :
  library_total (conf st) ->
  n_samples (conf st) <= 0 ->
  changing_param_values (conf st) = v :: rest ->
  let c := with_tuned_params
             (<[changing_param (conf st) := v]> (tuned_params (conf st))) (conf st) in
  res (benchmark_influence st) = inl (own_error (n_samples (conf st))) /\
  exists est r,
    emitted (benchmark_influence st) =
      aborted_pass_events c est r (clock st (ticks st)) (clock st (S (ticks st))).
Proof.
  intros Hlib Hn Hv c.
  destruct (iteration_aborts v no_locals st Hlib Hn eq_refl) as (est & r & st' & Hit).
  assert (Hrun : benchmark_influence st =
            {| res := inl (own_error (n_samples (conf st))); final := st';
               emitted := [] ++ aborted_pass_events c est r (clock st (ticks st))
                                   (clock st (S (ticks st))) |}).
  { unfold benchmark_influence. eapply bind_then; [reflexivity|].
    cbv beta. rewrite Hv. cbn [for_each].
    eapply bind_raises_then. eapply bind_raises_then. exact Hit. }
  rewrite Hrun. simpl. eauto.
Qed.

(** X2. Whatever the library does, [benchmark_influence] cannot return on a
    non-empty value list when [n_samples <= 0]. *)
Theorem nonpositive_n_samples_never_returns st :
  n_samples (conf st) <= 0 ->
  changing_param_values (conf st) <> [] ->
  exists e, res (benchmark_influence st) = inl e.
Proof.
  intros Hn Hv. destruct (res (benchmark_influence st)) as [e|[[pp pt] cs]] eqn:Hres.
  { by exists e. }
  apply returns_eta in Hres.
  apply benchmark_influence_returns_inv in Hres as (Lf & Hrun & _).
  destruct (for_each_returns _ _ _ _ _ _ Hrun)
    as (_ & _ & _ & _ & _ & _ & _ & _ & _ & _ & _ & _ & _ & Hpos).
  specialize (Hpos eq_refl Hv). lia.
Qed.

(** ** Where exceptions come from *)

Lemma library_only_bind {A B} c (P : A -> Prop) (Q : B -> Prop)
    (m : SM A) (f : A -> SM B) :
  library_only c P m -> (forall a, P a -> library_only c Q (f a)) ->
  library_only c Q (bind m f).
Proof.
  intros Hm Hf s Hs. unfold bind. destruct (Hm s Hs) as [Hfin Hres].
  destruct (m s) as [[e|a] s1 e1]; simpl in *; [done|].
  destruct (Hf a Hres s1 Hfin) as [Hfin' Hres']. split; [done|].
  destruct (res (f a s1)) as [e|b]; [|done].
  destruct Hres' as (pre & k & ->). exists (e1 ++ pre), k. by rewrite app_assoc.
Qed.

Lemma library_only_returns {A} c (P : A -> Prop) (m : SM A) :
  returns_on c P m -> library_only c P m.
Proof.
  intros Hm s Hs. destruct (Hm s Hs) as (a & Hres & Ha & Hfin).
  split; [done|]. by rewrite Hres.
Qed.

Lemma library_only_call {A} c k (f : Lib A) :
  library_only c (fun _ => True) (call k f).
Proof.
  intros s Hs. unfold call. destruct (f (lib s)) as [[e|a] s']; simpl; split;
    try done.
  by exists [], k.
Qed.

Lemma library_only_predict_loop c est n yp :
  library_only c (fun yp' => n <> O \/ is_Some yp -> is_Some yp')
    (predict_loop est n yp).
Proof.
  revert yp. induction n as [|n IH]; intros yp; simpl.
  - apply library_only_returns, returns_on_ret. intros [?|?]; done.
  - eapply library_only_bind.
    { apply library_only_returns, (returns_on_any _ _ (keeps_conf_rd _)); eauto. }
    intros d _. eapply library_only_bind; [apply library_only_call|].
    intros y _ s Hs. destruct (IH (Some y) s Hs) as [Hfin Hres].
    split; [done|]. destruct (res (predict_loop est n (Some y) s)); [done|].
    intros _. apply Hres. right. eauto.
Qed.

Lemma library_only_iteration c v L :
  1 <= n_samples c -> library_only c (fun _ => True) (iteration v L).
Proof.
  intros Hn. unfold iteration.
  eapply library_only_bind.
  { apply library_only_returns, (returns_on_rd_fixed c changing_param); done. }
  intros key _.
  eapply library_only_bind; [apply library_only_returns, returns_on_set|intros _ _].
  eapply library_only_bind.
  { apply library_only_returns, (returns_on_any _ _ (keeps_conf_rd _)); eauto. }
  intros cls _.
  eapply library_only_bind.
  { apply library_only_returns, (returns_on_any _ _ (keeps_conf_rd _)); eauto. }
  intros kwargs _.
  eapply library_only_bind; [apply library_only_call|intros est _].
  eapply library_only_bind; [apply library_only_call|intros r _].
  eapply library_only_bind.
  { apply library_only_returns, (returns_on_any _ _ (keeps_conf_print _)); eauto. }
  intros _ _.
  eapply library_only_bind.
  { apply library_only_returns, (returns_on_any _ _ (keeps_conf_rd _)); eauto. }
  intros d _.
  eapply library_only_bind; [apply library_only_call|intros _ _].
  eapply library_only_bind.
  { apply library_only_returns, (returns_on_any _ _ (keeps_conf_rd _)); eauto. }
  intros hook _.
  eapply library_only_bind; [apply library_only_call|intros _ _].
  eapply library_only_bind.
  { apply library_only_returns, (returns_on_any _ _ (keeps_conf_rd _)); eauto. }
  intros cc _.
  eapply library_only_bind; [apply library_only_call|intros complexity _].
  eapply library_only_bind.
  { apply library_only_returns, (returns_on_any _ _ keeps_conf_time); eauto. }
  intros start_time _.
  eapply library_only_bind.
  { apply library_only_returns, (returns_on_rd_fixed c n_samples); done. }
  intros n ->.
  eapply library_only_bind; [apply library_only_predict_loop|].
  intros yp Hyp.
  eapply library_only_bind.
  { apply library_only_returns, (returns_on_any _ _ keeps_conf_time); eauto. }
  intros now _.
  eapply library_only_bind.
  { apply library_only_returns, (returns_on_rd_fixed c n_samples); done. }
  intros n' ->.
  destruct (n_samples c =? 0) eqn:En; [apply Z.eqb_eq in En; lia|].
  eapply library_only_bind; [apply library_only_returns, returns_on_ret_any|].
  intros elapsed _.
  eapply library_only_bind.
  { apply library_only_returns, (returns_on_any _ _ (keeps_conf_rd _)); eauto. }
  intros ppc _.
  eapply library_only_bind.
  { apply library_only_returns, (returns_on_any _ _ (keeps_conf_rd _)); eauto. }
  intros d' _.
  destruct Hyp as [y ->]; [left; lia|].
  eapply library_only_bind; [apply library_only_returns, returns_on_ret_any|].
  intros ? _.
  eapply library_only_bind; [apply library_only_call|intros score _].
  eapply library_only_bind.
  { apply library_only_returns, (returns_on_any _ _ (keeps_conf_rd _)); eauto. }
  intros label _.
  eapply library_only_bind.
  { apply library_only_returns, (returns_on_any _ _ (keeps_conf_print _)); eauto. }
  intros _ _. apply library_only_returns, returns_on_ret_any.
Qed.

Lemma library_only_for_each c values : forall L,
  1 <= n_samples c -> library_only c (fun _ => True) (for_each values L).
Proof.
  induction values as [|v values IH]; intros L Hn; simpl.
  - apply library_only_returns, returns_on_ret_any.
  - eapply library_only_bind; [by apply library_only_iteration|].
    intros L' _. by apply IH.
Qed.

(** X3. With [n_samples >= 1], every exception [benchmark_influence] raises is
    the exception of a library call: that call is the last event of the
    trace and no call before it had raised.  The function adds no exception
    of its own. *)
Theorem exceptions_come_from_the_library st e :
  1 <= n_samples (conf st) ->
  res (benchmark_influence st) = inl e ->
  exists pre k,
    emitted (benchmark_influence st) = pre ++ [EvCall k (Some e)] /\ quiet pre.
Proof.
  intros Hn Hres.
  assert (Hlo : library_only (conf st) (fun _ => True) benchmark_influence).
  { unfold benchmark_influence.
    eapply library_only_bind.
    { apply library_only_returns, (returns_on_any _ _ (keeps_conf_rd _)); eauto. }
    intros values _.
    eapply library_only_bind; [by apply library_only_for_each|intros L _].
    apply library_only_returns, returns_on_ret_any. }
  destruct (Hlo st (same_but_tuned_refl _)) as [_ Hev]. rewrite Hres in Hev.
  destruct Hev as (pre & k & Hev). exists pre, k. split; [done|].
  by destruct (raised_call_ends_run _ pre k e []
                 (fails_fast_benchmark_influence st) Hev) as (_ & _ & Hq).
Qed.

(** ** The configuration after any run *)

Lemma for_each_conf_any values : forall L st,
  let c' := conf (final (for_each values L st)) in
  c' = conf st \/
  exists v, v ∈ values /\
    c' = with_tuned_params
           (<[changing_param (conf st) := v]> (tuned_params (conf st))) (conf st).
Proof.
  induction values as [|v values IH]; intros L st; simpl; [by left|].
  right. unfold bind. pose proof (iteration_conf v L st) as Hc.
  destruct (iteration v L st) as [[e|L1] st1 e1]; simpl in *.
  - exists v. split; [|done]. apply elem_of_cons. by left.
  - destruct (IH L1 st1) as [->|(v' & Hin & ->)].
    + exists v. split; [|done]. apply elem_of_cons. by left.
    + exists v'. split; [apply elem_of_cons; by right|].
      rewrite Hc; simpl. by rewrite insert_insert_eq.
Qed.

Lemma conf_after_run_cases st :
  let c' := conf (final (benchmark_influence st)) in
  c' = conf st \/
  exists v, v ∈ changing_param_values (conf st) /\
    c' = with_tuned_params
           (<[changing_param (conf st) := v]> (tuned_params (conf st))) (conf st).
Proof.
  unfold benchmark_influence, bind at 1, rd at 1; simpl.
  unfold bind.
  pose proof (for_each_conf_any (changing_param_values (conf st)) no_locals st) as Hc.
  destruct (for_each _ _ st) as [[e|L] st1 e1]; simpl in *; exact Hc.
Qed.

(** X4. After any run of [benchmark_influence], returning or raising, the
    configuration is the one before except possibly that the key named by
    [changing_param] of [tuned_params] holds one of the values of the value
    list; no other key and no other field is written. *)
Theorem conf_after_any_run st :
  let c' := conf (final (benchmark_influence st)) in
  c' = conf st \/
  exists v, v ∈ changing_param_values (conf st) /\
    c' = with_tuned_params
           (<[changing_param (conf st) := v]> (tuned_params (conf st))) (conf st).
Proof. exact (conf_after_run_cases st). Qed.

(** ** Running a configuration a second time *)

Lemma iteration_overwrites v v0 L c s clk k :
  iteration v L
    {| conf := with_tuned_params (<[changing_param c := v0]> (tuned_params c)) c;
       lib := s; clock := clk; ticks := k |} =
  iteration v L {| conf := c; lib := s; clock := clk; ticks := k |}.
Proof.
  unfold iteration. unfold bind at 1 2. unfold bind at 24 25. simpl.
  by rewrite insert_insert_eq.
Qed.

Lemma for_each_overwrites values L c s clk k v0 :
  v0 ∈ values ->
  for_each values L
    {| conf := with_tuned_params (<[changing_param c := v0]> (tuned_params c)) c;
       lib := s; clock := clk; ticks := k |} =
  for_each values L {| conf := c; lib := s; clock := clk; ticks := k |}.
Proof.
  destruct values as [|v values]; [by intros ?%elem_of_nil|]. intros _.
  cbn [for_each]. unfold bind. by rewrite iteration_overwrites.
Qed.

Lemma benchmark_influence_res st :
  res (benchmark_influence st) =
  res (bind (for_each (changing_param_values (conf st)) no_locals)
         (fun L => ret (prediction_powers L, prediction_times L, complexities L)) st).
Proof. reflexivity. Qed.

Lemma benchmark_influence_emitted st :
  emitted (benchmark_influence st) =
  emitted (bind (for_each (changing_param_values (conf st)) no_locals)
             (fun L => ret (prediction_powers L, prediction_times L, complexities L)) st).
Proof. reflexivity. Qed.

(** X5. Running [benchmark_influence] on a configuration object that an earlier
    call has already processed (whether that call returned or raised) gives
    the same result and the same trace as running it on the configuration
    as it was before that call, from the same library state and clock: the
    entry the earlier call left in [tuned_params] is overwritten before any
    estimator is built. *)
Theorem rerun_gives_same_results st0 s clk k :
  let fresh := {| conf := conf st0; lib := s; clock := clk; ticks := k |} in
  let used := {| conf := conf (final (benchmark_influence st0));
                 lib := s; clock := clk; ticks := k |} in
  res (benchmark_influence used) = res (benchmark_influence fresh) /\
  emitted (benchmark_influence used) = emitted (benchmark_influence fresh).
Proof.
  intros fresh used. subst fresh used.
  destruct (conf_after_run_cases st0) as [->|(v & Hin & ->)]; [done|].
  rewrite !benchmark_influence_res, !benchmark_influence_emitted.
  cbn [conf changing_param_values with_tuned_params].
  unfold bind. by rewrite (for_each_overwrites _ _ _ _ _ _ _ Hin).
Qed.

(** ** The sweep followed by the plot *)

(** X7. When the body of the main loop returns a figure, the sweep returned
    three sequences and the figure plots them: both traces have the
    complexities as abscissae, the first has the prediction errors and the
    second the latencies as ordinates, and all of these have as many points
    as the value list; the title names the estimator class. *)
Theorem benchmark_and_plot_series st fig :
  res (benchmark_and_plot st) = inr fig ->
  exists pp pt cs,
    res (benchmark_influence st) = inr (pp, pt, cs) /\
    map sc_x (fig_data fig) = [cs; cs] /\
    map sc_y (fig_data fig) = [pp; pt] /\
    map sc_name (fig_data fig) = ["prediction error"; "latency"] /\
    Forall (fun t => length (sc_x t) = length (changing_param_values (conf st)) /\
                     length (sc_y t) = length (changing_param_values (conf st)))
      (fig_data fig) /\
    lay_title (fig_layout fig) =
      "Influence of Model Complexity - " +:+ cls_name (estimator (conf st)).
Proof.
  intros Hres. unfold benchmark_and_plot, bind in Hres.
  pose proof (benchmark_influence_frame st) as Hfr. cbv beta in Hfr.
  assert (Hname : cls_name (estimator (conf (final (benchmark_influence st)))) =
                  cls_name (estimator (conf st))) by (by rewrite Hfr).
  assert (Hlabel : prediction_performance_label (conf (final (benchmark_influence st))) =
                   prediction_performance_label (conf st)) by (by rewrite Hfr).
  clear Hfr.
  destruct (res (benchmark_influence st)) as [e|[[pp pt] cs]] eqn:Hbi; [done|].
  pose proof Hbi as Hrun. apply returns_eta in Hrun.
  apply benchmark_influence_returns_inv in Hrun as (Lf & Hrun & -> & -> & ->).
  destruct (for_each_returns _ _ _ _ _ _ Hrun)
    as (ps & ts & cs & Hps & Hts & Hcs & Ep & Et & Ec & _).
  simpl in Ep, Et, Ec, Hres. injection Hres as <-. simpl.
  eexists _, _, _. repeat split; try done.
  - repeat constructor; simpl; congruence.
  - f_equal. exact Hname.
Qed.

(** ** Runs that are certain to return *)

(** X6. When no library function the configuration uses raises and
    [n_samples >= 1], [benchmark_influence] returns, and what it returns are
    three sequences as long as the value list. *)
Theorem sweep_returns_on_a_total_library st :
  library_total (conf st) -> 1 <= n_samples (conf st) ->
  exists pp pt cs,
    res (benchmark_influence st) = inr (pp, pt, cs) /\
    length pp = length (changing_param_values (conf st)) /\
    length pt = length (changing_param_values (conf st)) /\
    length cs = length (changing_param_values (conf st)).
Proof.
  intros Hlib Hn.
  destruct (benchmark_influence_returns st Hlib Hn) as (pp & pt & cs & Hres).
  exists pp, pt, cs. split; [done|].
  apply returns_eta in Hres.
  apply benchmark_influence_returns_inv in Hres as (Lf & Hrun & -> & -> & ->).
  destruct (for_each_returns _ _ _ _ _ _ Hrun)
    as (ps & ts & cs & Hps & Hts & Hcs & Ep & Et & Ec & _).
  simpl in Ep, Et, Ec. by rewrite Ep, Et, Ec.
Qed.

End SweepEdges.

(** * The loop over the configurations *)

Section MainLoop.
Context `{Sklearn}.
Implicit Types (c : Conf) (w : MainState) (todo : list Conf).

Lemma benchmark_and_plot_drawn st fig :
  res (benchmark_and_plot st) = inr fig -> drawn_for (conf st) fig.
Proof.
  intros Hres. unfold benchmark_and_plot, bind in Hres.
  pose proof (benchmark_influence_frame st) as Hfr. cbv beta in Hfr.
  assert (Hname : cls_name (estimator (conf (final (benchmark_influence st)))) =
                  cls_name (estimator (conf st))) by (by rewrite Hfr).
  assert (Hlabel : prediction_performance_label (conf (final (benchmark_influence st))) =
                   prediction_performance_label (conf st)) by (by rewrite Hfr).
  clear Hfr.
  destruct (res (benchmark_influence st)) as [e|[[pp pt] cs]] eqn:Hbi; [done|].
  pose proof Hbi as Hrun. apply returns_eta in Hrun.
  apply benchmark_influence_returns_inv in Hrun as (Lf & Hrun & -> & -> & ->).
  destruct (for_each_returns _ _ _ _ _ _ Hrun)
    as (ps & ts & cs & Hps & Hts & Hcs & Ep & Et & Ec & _).
  simpl in Ep, Et, Ec, Hres. injection Hres as <-.
  repeat split; simpl.
  - f_equal. exact Hname.
  - exact Hlabel.
  - repeat constructor; simpl; congruence.
Qed.

Lemma same_but_tuned_all todo : Forall2 same_but_tuned todo todo.
Proof. induction todo; constructor; [apply same_but_tuned_refl|done]. Qed.

Lemma for_confs_frame todo : forall w,
  exists done',
    main_confs (final (for_confs todo w)) = main_confs w ++ done' /\
    Forall2 same_but_tuned todo done'.
Proof.
  induction todo as [|c rest IH]; intros w; simpl.
  - exists []. by rewrite app_nil_r.
  - set (st := {| conf := c; lib := main_lib w; clock := main_clock w;
                  ticks := main_ticks w |}).
    pose proof (benchmark_and_plot_frame st) as Hfr.
    destruct (res (benchmark_and_plot st)) as [e|fig]; simpl.
    + exists (conf (final (benchmark_and_plot st)) :: rest). split; [done|].
      constructor; [exact Hfr|apply same_but_tuned_all].
    + destruct (IH {| main_confs := main_confs w ++ [conf (final (benchmark_and_plot st))];
                      main_plots := main_plots w ++ [fig];
                      main_lib := lib (final (benchmark_and_plot st));
                      main_clock := clock (final (benchmark_and_plot st));
                      main_ticks := ticks (final (benchmark_and_plot st)) |})
        as (done' & -> & Hall).
      exists (conf (final (benchmark_and_plot st)) :: done'). simpl.
      split; [by rewrite <- app_assoc|]. by constructor.
Qed.

Lemma for_confs_returns todo : forall w,
  res (for_confs todo w) = inr tt ->
  exists figs,
    main_plots (final (for_confs todo w)) = main_plots w ++ figs /\
    Forall2 drawn_for todo figs.
Proof.
  induction todo as [|c rest IH]; intros w Hres; simpl in *.
  - exists []. by rewrite app_nil_r.
  - set (st := {| conf := c; lib := main_lib w; clock := main_clock w;
                  ticks := main_ticks w |}) in *.
    destruct (res (benchmark_and_plot st)) as [e|fig] eqn:Hbp; simpl in *; [done|].
    destruct (IH _ Hres) as (figs & -> & Hall). simpl.
    exists (fig :: figs). split; [by rewrite <- app_assoc|].
    constructor; [|done]. by apply (benchmark_and_plot_drawn st).
Qed.

Lemma for_confs_raises todo : forall w e,
  res (for_confs todo w) = inl e ->
  exists i c figs done' st,
    todo !! i = Some c /\ conf st = c /\ res (benchmark_and_plot st) = inl e /\
    main_plots (final (for_confs todo w)) = main_plots w ++ figs /\
    Forall2 drawn_for (take i todo) figs /\
    main_confs (final (for_confs todo w)) = main_confs w ++ done' /\
    length done' = length todo /\
    drop (S i) done' = drop (S i) todo.
Proof.
  induction todo as [|c rest IH]; intros w e Hres; simpl in *; [done|].
  set (st := {| conf := c; lib := main_lib w; clock := main_clock w;
                ticks := main_ticks w |}) in *.
  destruct (res (benchmark_and_plot st)) as [e'|fig] eqn:Hbp; simpl in *.
  - injection Hres as ->.
    exists 0%nat, c, [], (conf (final (benchmark_and_plot st)) :: rest), st.
    rewrite app_nil_r. repeat split; try done; constructor.
  - destruct (IH _ _ Hres)
      as (i & ci & figs & done' & sti & Hi & Hc & He & -> & Hall & -> & Hlen & Hdrop).
    exists (S i), ci, (fig :: figs),
      (conf (final (benchmark_and_plot st)) :: done'), sti. simpl.
    rewrite <- !app_assoc. repeat split; try done.
    + constructor; [|done]. by apply (benchmark_and_plot_drawn st).
    + by rewrite Hlen.
Qed.

(** X8. When the loop over [configurations] returns, it has appended exactly
    one figure per configuration to [model_compexity_influence_plot], in the
    order of the configurations: the [i]-th figure carries the name of the
    [i]-th estimator class in its title, the [i]-th performance label on its
    left axis, and traces with as many points as the [i]-th value list. *)
Theorem main_loop_plots_aligned configurations s clk k :
  res (main_loop configurations s clk k) = inr tt ->
  Forall2 drawn_for configurations
    (main_plots (final (main_loop configurations s clk k))).
Proof.
  intros Hres. unfold main_loop in *.
  by destruct (for_confs_returns _ _ Hres) as (figs & -> & Hall).
Qed.

(** X9. When the loop over [configurations] raises, the exception is the one
    raised while processing some configuration [i]; a figure has been
    appended for each of the [i] configurations before it and for no other,
    and the configurations after it are exactly as they were: they are
    never looked at. *)
Theorem main_loop_stops_at_first_error configurations s clk k e :
  res (main_loop configurations s clk k) = inl e ->
  let o := main_loop configurations s clk k in
  exists i c st,
    configurations !! i = Some c /\ conf st = c /\
    res (benchmark_and_plot st) = inl e /\
    Forall2 drawn_for (take i configurations) (main_plots (final o)) /\
    length (main_confs (final o)) = length configurations /\
    drop (S i) (main_confs (final o)) = drop (S i) configurations.
Proof.
  intros Hres o. subst o. unfold main_loop in *.
  destruct (for_confs_raises _ _ _ Hres)
    as (i & c & figs & done' & st & Hi & Hc & He & -> & Hall & -> & Hlen & Hdrop).
  by exists i, c, st.
Qed.

(** X10. Whether the loop over [configurations] returns or raises, the list of
    configuration objects it leaves has the same length, and each object
    differs from what it was at most in its [tuned_params] dictionary; in
    particular every configuration still holds the dataset split it was
    built with. *)
Theorem main_loop_writes_tuned_params_only configurations s clk k :
  let after := main_confs (final (main_loop configurations s clk k)) in
  Forall2 same_but_tuned configurations after /\
  map data after = map data configurations.
Proof.
  intros after. subst after. unfold main_loop.
  destruct (for_confs_frame configurations
              {| main_confs := []; main_plots := []; main_lib := s;
                 main_clock := clk; main_ticks := k |}) as (done' & -> & Hall).
  simpl. split; [done|].
  induction Hall as [|c c' cs cs' Hc _ IH]; simpl; [done|].
  rewrite IH. f_equal. by rewrite Hc.
Qed.

End MainLoop.

(** * Facts about [generate_data] *)

Section DatasetFacts.
Context `{Loaders}.

Lemma offset_formula (n : nat) :
  int_of_float (inject_Z (Z.of_nat n) * (8 # 10))%Q = Z.of_nat n * 8 / 10.
Proof.
  unfold int_of_float.
  assert (Hle : Qle_bool 0 (inject_Z (Z.of_nat n) * (8 # 10)) = true).
  { apply Qle_bool_iff. apply Qmult_le_0_compat; [|done].
    change 0%Q with (inject_Z 0). rewrite <- Zle_Qle. lia. }
  rewrite Hle. unfold Qfloor, Qmult, inject_Z. simpl. done.
Qed.

Lemma offset_bounds (n : nat) :
  0 <= Z.of_nat n * 8 / 10 <= Z.of_nat n /\
  (n <> O -> Z.of_nat n * 8 / 10 < Z.of_nat n) /\
  (Z.of_nat n * 8 / 10 = 0 <-> (n <= 1)%nat).
Proof.
  assert (H10 : Z.of_nat n * 8 = 10 * (Z.of_nat n * 8 / 10) + Z.of_nat n * 8 mod 10)
    by (apply Z.div_mod; lia).
  assert (Hmod : 0 <= Z.of_nat n * 8 mod 10 < 10) by (apply Z.mod_pos_bound; lia).
  repeat split; intros; lia.
Qed.

Lemma gbind_inr {A B} (m : Gen A) (f : A -> Gen B) s b s' :
  gbind m f s = (inr b, s') ->
  exists a s1, m s = (inr a, s1) /\ f a s1 = (inr b, s').
Proof. unfold gbind. destruct (m s) as [[e|a] s1]; [done|]. eauto. Qed.

Lemma lift_inr {A} (f : Lib A) s a s' :
  lift f s = (inr a, s') -> f s = (inr a, s').
Proof. unfold lift. destruct (f s) as [[e|a'] s1]; [done|]. by intros [= -> ->]. Qed.

Lemma gret_inr {A} (x : A) s a s' : gret x s = (inr a, s') -> a = x /\ s' = s.
Proof. unfold gret. by intros [= -> ->]. Qed.

Lemma load_inr case s (bunch : option (list Row * list Target)) s1 :
  (if String.eqb case "regression" then
     gbind (lift load_boston) (fun b => gret (Some b))
   else if String.eqb case "classification" then
     gbind (lift fetch_20newsgroups_vectorized) (fun b => gret (Some b))
   else gret None) s = (inr bunch, s1) ->
  match bunch with
  | Some b => exists load, loader case = Some load /\ load s = (inr b, s1)
  | None => loader case = None /\ s1 = s
  end.
Proof.
  unfold loader.
  destruct (String.eqb case "regression");
    [|destruct (String.eqb case "classification")]; intros Hrun.
  - apply gbind_inr in Hrun as (b & s' & Hl%lift_inr & [-> ->]%gret_inr). eauto.
  - apply gbind_inr in Hrun as (b & s' & Hl%lift_inr & [-> ->]%gret_inr). eauto.
  - by apply gret_inr in Hrun as [-> ->].
Qed.

Lemma generate_data_returns_inv case sparse s d s' :
  generate_data case sparse s = (inr d, s') ->
  exists X y s2,
    shuffled_bunch case s X y s2 /\
    let o := Z.to_nat (Z.of_nat (length X) * 8 / 10) in
    converted sparse (take o X) (drop o X) (take o y) (drop o y) s2 d s'.
Proof.
  unfold generate_data, shuffled_bunch, converted. intros Hrun.
  apply gbind_inr in Hrun as (bunch & s1 & Hload%load_inr & Hrun).
  apply gbind_inr in Hrun as (b & s1' & Hb & Hrun).
  destruct bunch as [b'|]; [|done].
  apply gret_inr in Hb as [-> ->]. destruct Hload as (load & Hloader & Hload).
  apply gbind_inr in Hrun as ([X y] & s2 & Hshuf%lift_inr & Hrun).
  cbn [fst snd] in Hrun. rewrite offset_formula in Hrun.
  unfold slice_to, slice_from in Hrun.
  destruct (offset_bounds (length X)) as [[Hlo _] _].
  rewrite (proj2 (Z.leb_le _ _) Hlo) in Hrun.
  exists X, y, s2. split; [by exists load, b', s1|].
  apply gbind_inr in Hrun as ([Xtr Xte] & s3 & HX & Hrun).
  apply gbind_inr in Hrun as (yte & s4 & Hyte%lift_inr & Hrun).
  apply gbind_inr in Hrun as (ytr & s5 & Hytr%lift_inr & [-> ->]%gret_inr).
  cbn [X_train X_test y_train y_test fst snd].
  destruct sparse.
  - apply gbind_inr in HX as (a1 & t1 & H1%lift_inr & HX).
    apply gbind_inr in HX as (a2 & t2 & H2%lift_inr & [[= -> ->] ->]%gret_inr).
    by exists t1, t2, s4.
  - apply gbind_inr in HX as (a1 & t1 & H1%lift_inr & HX).
    apply gbind_inr in HX as (a2 & t2 & H2%lift_inr & [[= -> ->] ->]%gret_inr).
    by exists t1, t2, s4.
Qed.

(** X11. For a case other than ['regression'] and ['classification'],
    [generate_data] raises [AttributeError] (it reads [bunch.data] with
    [bunch] still [None]) without loading or shuffling anything: the library
    state is untouched. *)
Theorem generate_data_unknown_case case sparse s :
  case <> "regression" -> case <> "classification" ->
  generate_data case sparse s = (inl AttributeError, s).
Proof.
  intros Hreg Hcls. unfold generate_data.
  apply String.eqb_neq in Hreg, Hcls. rewrite Hreg, Hcls. reflexivity.
Qed.

(** X12. When [generate_data] returns, its four arrays are the conversions of a
    split of the shuffled dataset that loses and duplicates nothing: the
    training rows followed by the test rows are the shuffled rows, likewise
    for the targets, and when the shuffle returned as many targets as rows
    the training (test) targets are as many as the training (test) rows.
    The rows go through [csr_matrix] when [sparse] is set and through
    [np.array] otherwise. *)
Theorem generate_data_splits_without_loss case sparse s d s' :
  generate_data case sparse s = (inr d, s') ->
  exists X y s2 Xtr Xte ytr yte,
    shuffled_bunch case s X y s2 /\
    converted sparse Xtr Xte ytr yte s2 d s' /\
    Xtr ++ Xte = X /\ ytr ++ yte = y /\
    (length y = length X ->
     length ytr = length Xtr /\ length yte = length Xte).
Proof.
  intros Hrun.
  destruct (generate_data_returns_inv _ _ _ _ _ Hrun) as (X & y & s2 & Hsh & Hconv).
  eexists X, y, s2, _, _, _, _. split; [done|]. split; [exact Hconv|].
  rewrite !take_drop. repeat split; try done.
  - rewrite !length_take. lia.
  - rewrite !length_drop. lia.
Qed.

(** X13. When [generate_data] returns, the training part has [int(n * 0.8)] rows,
    that is [8 n / 10] rounded down, for [n] shuffled rows; the test part is
    never empty unless the dataset is, and the training part is empty
    exactly when the dataset has at most one row. *)
Theorem generate_data_split_sizes case sparse s d s' :
  generate_data case sparse s = (inr d, s') ->
  exists X y s2 Xtr Xte ytr yte,
    shuffled_bunch case s X y s2 /\
    converted sparse Xtr Xte ytr yte s2 d s' /\
    Z.of_nat (length Xtr) = Z.of_nat (length X) * 8 / 10 /\
    (length Xtr + length Xte = length X)%nat /\
    (X <> [] -> Xte <> []) /\
    (Xtr = [] <-> (length X <= 1)%nat).
Proof.
  intros Hrun.
  destruct (generate_data_returns_inv _ _ _ _ _ Hrun) as (X & y & s2 & Hsh & Hconv).
  eexists X, y, s2, _, _, _, _. split; [done|]. split; [exact Hconv|].
  destruct (offset_bounds (length X)) as ([Hlo Hhi] & Hlt & Hzero).
  rewrite length_take, length_drop.
  split; [lia|]. split; [lia|]. split.
  - intros HX Hnil. apply (f_equal length) in Hnil. rewrite length_drop in Hnil.
    simpl in Hnil. assert (length X <> 0%nat) by (by destruct X). lia.
  - split.
    + intros Hnil. apply (f_equal length) in Hnil. rewrite length_take in Hnil.
      simpl in Hnil. apply Hzero. lia.
    + intros Hle. apply Hzero in Hle. rewrite Hle. by rewrite take_0.
Qed.


End DatasetFacts.

(** * The notebooks on the small library *)

#[local] Existing Instance Toy.sklearn.
#[local] Existing Instance Toy.forest.

(** With [n_samples = 0] the division by [float(conf['n_samples'])] raises;
    with a negative [n_samples] the inner loop never binds [y_pred]. *)
Example zero_samples_raises :
  res (benchmark_influence (Toy.start (Toy.with_n_samples 0 (Toy.nth_conf 0)))) =
  inl ZeroDivisionError.
Proof. vm_compute. reflexivity. Qed.

Example negative_samples_raises :
  res (benchmark_influence (Toy.start (Toy.with_n_samples (-3) (Toy.nth_conf 0)))) =
  inl UnboundLocalError.
Proof. vm_compute. reflexivity. Qed.

(** On a library that never raises the sweep returns, whatever the clock. *)
Example calm_sweep_returns (clock : nat -> Q) (k s : nat) :
  exists pp pt cs,
    res (benchmark_influence (H := Calm.sklearn)
           {| conf := Calm.nusvr_conf; lib := s; clock := clock; ticks := k |}) =
    inr (pp, pt, cs).
Proof.
  apply (benchmark_influence_returns (H := Calm.sklearn)); [|by vm_compute].
  repeat split; intros; intros ?; simpl; eauto.
Qed.

(** The forest library never raises, so the tracking loop returns. *)
Example toy_track_returns X y lo hi s :
  res (OOB.track X y Toy.ensemble_clfs lo hi s) = inr tt.
Proof. apply OOBFacts.track_returns. repeat split; intros; simpl; eauto. Qed.

(** The first configuration of the notebook returns four aligned entries. *)
Lemma benchmark_influence_aligned_witness :
  let st := Toy.start (Toy.nth_conf 0) in
  let pp := [1 # 4; 1 # 4; 1 # 4; 1 # 4]%Q in
  let pt := [1 # 30; 5 # 30; 9 # 30; 13 # 30]%Q in
  let cs := [2; 2; 2; 2] in
  res (benchmark_influence st) = inr (pp, pt, cs) /\
  (let values := changing_param_values (conf st) in
   length pp = length values /\ length pt = length values /\
   length cs = length values /\
   forall i v, values !! i = Some v ->
     exists L st_i e_i L' st_i' e',
       for_each (take i values) no_locals st =
         {| res := inr L; final := st_i; emitted := e_i |} /\
       iteration v L st_i = {| res := inr L'; final := st_i'; emitted := e' |} /\
       built_with (changing_param (conf st)) v e' /\
       prediction_powers L = take i pp /\ prediction_powers L' = take (S i) pp /\
       prediction_times L = take i pt /\ prediction_times L' = take (S i) pt /\
       complexities L = take i cs /\ complexities L' = take (S i) cs).
Proof.
  intros st pp pt cs.
  assert (Hres : res (benchmark_influence st) = inr (pp, pt, cs))
    by (vm_compute; reflexivity).
  split; [exact Hres|].
  exact (benchmark_influence_aligned st pp pt cs Hres).
Defined.

(** C2 as stated fails: on the first configuration of the notebook the
    sweep returns, and the dictionary of fixed hyper-parameters, which had
    no [l1_ratio] entry, has one afterwards. *)
Lemma sweep_mutates_tuned_params :
  let st := Toy.start (Toy.nth_conf 0) in
  (exists r, res (benchmark_influence st) = inr r) /\
  tuned_params (conf st) !! "l1_ratio" = None /\
  tuned_params (conf (final (benchmark_influence st))) !! "l1_ratio" =
    Some (VFloat (9 # 10)) /\
  conf (final (benchmark_influence st)) <> conf st.
Proof.
  intros st.
  assert (H0 : tuned_params (conf st) !! "l1_ratio" = None)
    by (vm_compute; reflexivity).
  assert (H1 : tuned_params (conf (final (benchmark_influence st))) !! "l1_ratio" =
               Some (VFloat (9 # 10))) by (vm_compute; reflexivity).
  split; [eexists; vm_compute; reflexivity|].
  split; [exact H0|]. split; [exact H1|].
  intros E. apply (f_equal (fun c => tuned_params c !! "l1_ratio")) in E.
  vm_compute in E. discriminate E.
Qed.

Lemma conf_after_sweep_witness :
  let st := Toy.start (Toy.nth_conf 0) in
  let pp := [1 # 4; 1 # 4; 1 # 4; 1 # 4]%Q in
  let pt := [1 # 30; 5 # 30; 9 # 30; 13 # 30]%Q in
  let cs := [2; 2; 2; 2] in
  res (benchmark_influence st) = inr (pp, pt, cs) /\
  conf (final (benchmark_influence st)) =
  with_tuned_params
    (tuned_after (changing_param (conf st)) (changing_param_values (conf st))
       (tuned_params (conf st)))
    (conf st).
Proof.
  intros st pp pt cs.
  assert (Hres : res (benchmark_influence st) = inr (pp, pt, cs))
    by (vm_compute; reflexivity).
  split; [exact Hres|].
  exact (conf_after_sweep st pp pt cs Hres).
Defined.

Lemma latency_is_average_over_n_samples_witness :
  let st := Toy.start (Toy.nth_conf 0) in
  let pp := [1 # 4; 1 # 4; 1 # 4; 1 # 4]%Q in
  let pt := [1 # 30; 5 # 30; 9 # 30; 13 # 30]%Q in
  let cs := [2; 2; 2; 2] in
  res (benchmark_influence st) = inr (pp, pt, cs) /\
  changing_param_values (conf st) !! 1%nat = Some (VFloat (1 # 2)) /\
  (let n := n_samples (conf st) in
   let t0 := clock st (ticks st + 2 * 1)%nat in
   let t1 := clock st (S (ticks st + 2 * 1)) in
   1 <= n /\
   pt !! 1%nat = Some ((t1 - t0) / inject_Z n)%Q /\
   exists est before after,
     emitted (benchmark_influence st) =
       before ++ [EvTime t0] ++
       replicate (Z.to_nat n) (EvCall (CPredict est (X_test (data (conf st)))) None) ++
       [EvTime t1] ++ after /\
     clock_reads before = (2 * 1)%nat).
Proof.
  intros st pp pt cs.
  assert (Hres : res (benchmark_influence st) = inr (pp, pt, cs))
    by (vm_compute; reflexivity).
  assert (Hv : changing_param_values (conf st) !! 1%nat = Some (VFloat (1 # 2)))
    by reflexivity.
  split; [exact Hres|]. split; [exact Hv|].
  exact (latency_is_average_over_n_samples st pp pt cs Hres 1%nat _ Hv).
Defined.

Lemma complexities_deterministic_witness :
  let st1 := Toy.start (Toy.nth_conf 1) in
  let st2 := {| conf := Toy.nth_conf 1; lib := 0%nat;
                clock := Toy.clock_b; ticks := 5 |} in
  let pp := [7 # 2; 7 # 2; 7 # 2; 7 # 2; 7 # 2]%Q in
  let pt1 := [1 # 30; 5 # 30; 9 # 30; 13 # 30; 17 # 30]%Q in
  let cs := [2; 35; 68; 101; 134] in
  conf st1 = conf st2 /\ lib st1 = lib st2 /\
  res (benchmark_influence st1) = inr (pp, pt1, cs) /\
  exists pt2, res (benchmark_influence st2) = inr (pp, pt2, cs).
Proof.
  intros st1 st2 pp pt1 cs.
  assert (Hres : res (benchmark_influence st1) = inr (pp, pt1, cs))
    by (vm_compute; reflexivity).
  split; [reflexivity|]. split; [reflexivity|]. split; [exact Hres|].
  exact (complexities_deterministic st1 st2 pp pt1 cs eq_refl eq_refl Hres).
Defined.

Lemma fit_or_predict_error_propagates_witness :
  let st := Toy.start Toy.failing_conf in
  let pre := take 15 (emitted (benchmark_influence st)) in
  let k := CFit (<["fail" := VBool true]> ∅) [1; 2; 3; 4] [0; 1; 0; 1] in
  let e := LibraryError "fit failed" in
  is_fit_or_predict k = true /\
  emitted (benchmark_influence st) = pre ++ EvCall k (Some e) :: [] /\
  (res (benchmark_influence st) = inl e /\ @nil Event = [] /\ quiet pre).
Proof.
  intros st pre k e.
  assert (Hev : emitted (benchmark_influence st) = pre ++ EvCall k (Some e) :: [])
    by (vm_compute; reflexivity).
  split; [reflexivity|]. split; [exact Hev|].
  exact (fit_or_predict_error_propagates st pre k e [] eq_refl Hev).
Defined.

Lemma benchmark_influence_empty_witness :
  let st := Toy.start Toy.empty_conf in
  changing_param_values (conf st) = [] /\
  benchmark_influence st =
    {| res := inr ([], [], []); final := st; emitted := [] |}.
Proof.
  intros st. split; [reflexivity|].
  exact (benchmark_influence_empty st eq_refl).
Defined.

(** The tracking loop of the notebook, with its three labels and its range
    of 15 to 175 trees. *)
Lemma oob_sequence_length_witness :
  let run := OOB.track [] [] Toy.ensemble_clfs OOB.min_estimators OOB.max_estimators
               0%nat in
  let label := "RandomForestClassifier,<br>max_features='log2'" in
  let seq := default [] (OOB.od_get label (OOB.error_rate (final run))) in
  NoDup Toy.ensemble_clfs.*1 /\
  OOB.min_estimators <= OOB.max_estimators + 1 /\
  res run = inr tt /\
  OOB.od_get label (OOB.error_rate (final run)) = Some seq /\
  Z.of_nat (length seq) = OOB.max_estimators - OOB.min_estimators + 1.
Proof.
  intros run label seq.
  assert (Hnd : NoDup Toy.ensemble_clfs.*1).
  { apply (bool_decide_unpack _). vm_compute. exact I. }
  assert (Hle : OOB.min_estimators <= OOB.max_estimators + 1) by (vm_compute; discriminate).
  assert (Hres : res run = inr tt) by (vm_compute; reflexivity).
  assert (Hget : OOB.od_get label (OOB.error_rate (final run)) = Some seq)
    by (vm_compute; reflexivity).
  split; [exact Hnd|]. split; [exact Hle|]. split; [exact Hres|].
  split; [exact Hget|].
  exact (proj1 (OOBFacts.oob_sequence_length [] [] Toy.ensemble_clfs
                  OOB.min_estimators OOB.max_estimators 0%nat label seq
                  Hnd Hle Hres Hget)).
Defined.

Lemma oob_sizes_nondecreasing_witness :
  let run := OOB.track [] [] Toy.ensemble_clfs OOB.min_estimators OOB.max_estimators
               0%nat in
  let label := "RandomForestClassifier,<br>max_features=None" in
  let seq := default [] (OOB.od_get label (OOB.error_rate (final run))) in
  NoDup Toy.ensemble_clfs.*1 /\
  res run = inr tt /\
  OOB.od_get label (OOB.error_rate (final run)) = Some seq /\
  forall i j a b, (i <= j)%nat ->
    seq.*1 !! i = Some a -> seq.*1 !! j = Some b -> a <= b.
Proof.
  intros run label seq.
  assert (Hnd : NoDup Toy.ensemble_clfs.*1).
  { apply (bool_decide_unpack _). vm_compute. exact I. }
  assert (Hres : res run = inr tt) by (vm_compute; reflexivity).
  assert (Hget : OOB.od_get label (OOB.error_rate (final run)) = Some seq)
    by (vm_compute; reflexivity).
  split; [exact Hnd|]. split; [exact Hres|]. split; [exact Hget|].
  exact (OOBFacts.oob_sizes_nondecreasing [] [] Toy.ensemble_clfs
           OOB.min_estimators OOB.max_estimators 0%nat label seq Hnd Hres Hget).
Defined.

(** * The edge cases on the small libraries *)

Lemma nonpositive_n_samples_error_witness :
  let st := Calm.start (Calm.with_n_samples 0) in
  library_total (conf st) /\
  n_samples (conf st) <= 0 /\
  changing_param_values (conf st) = VFloat (1 # 10) :: [VFloat (1 # 4)] /\
  (let c := with_tuned_params
              (<[changing_param (conf st) := VFloat (1 # 10)]> (tuned_params (conf st)))
              (conf st) in
   res (benchmark_influence st) = inl (own_error (n_samples (conf st))) /\
   exists est r,
     emitted (benchmark_influence st) =
       aborted_pass_events c est r (clock st (ticks st)) (clock st (S (ticks st)))).
Proof.
  intros st.
  assert (Hlib : library_total (conf st))
    by (repeat split; intros; intros ?; simpl; eauto).
  assert (Hn : n_samples (conf st) <= 0) by (vm_compute; discriminate).
  split; [exact Hlib|]. split; [exact Hn|]. split; [reflexivity|].
  exact (nonpositive_n_samples_error st _ _ Hlib Hn eq_refl).
Defined.

Lemma nonpositive_n_samples_never_returns_witness :
  let st := Toy.start (Toy.with_n_samples (-3) (Toy.nth_conf 0)) in
  n_samples (conf st) <= 0 /\
  changing_param_values (conf st) <> [] /\
  exists e, res (benchmark_influence st) = inl e.
Proof.
  intros st.
  assert (Hn : n_samples (conf st) <= 0) by (vm_compute; discriminate).
  assert (Hv : changing_param_values (conf st) <> []) by discriminate.
  split; [exact Hn|]. split; [exact Hv|].
  exact (nonpositive_n_samples_never_returns st Hn Hv).
Defined.

Lemma exceptions_come_from_the_library_witness :
  let st := Toy.start Toy.failing_conf in
  let e := LibraryError "fit failed" in
  1 <= n_samples (conf st) /\
  res (benchmark_influence st) = inl e /\
  exists pre k,
    emitted (benchmark_influence st) = pre ++ [EvCall k (Some e)] /\ quiet pre.
Proof.
  intros st e.
  assert (Hn : 1 <= n_samples (conf st)) by (vm_compute; discriminate).
  assert (Hres : res (benchmark_influence st) = inl e) by (vm_compute; reflexivity).
  split; [exact Hn|]. split; [exact Hres|].
  exact (exceptions_come_from_the_library st e Hn Hres).
Defined.

Lemma benchmark_and_plot_series_witness :
  let st := Toy.start (Toy.nth_conf 0) in
  exists fig,
    res (benchmark_and_plot st) = inr fig /\
    exists pp pt cs,
      res (benchmark_influence st) = inr (pp, pt, cs) /\
      map sc_x (fig_data fig) = [cs; cs] /\
      map sc_y (fig_data fig) = [pp; pt] /\
      map sc_name (fig_data fig) = ["prediction error"; "latency"] /\
      Forall (fun t => length (sc_x t) = length (changing_param_values (conf st)) /\
                       length (sc_y t) = length (changing_param_values (conf st)))
        (fig_data fig) /\
      lay_title (fig_layout fig) =
        "Influence of Model Complexity - " +:+ cls_name (estimator (conf st)).
Proof.
  intros st.
  assert (Hex : exists fig, res (benchmark_and_plot st) = inr fig)
    by (eexists; vm_compute; reflexivity).
  destruct Hex as [fig Hres]. exists fig. split; [exact Hres|].
  exact (benchmark_and_plot_series st fig Hres).
Defined.

Lemma sweep_returns_on_a_total_library_witness :
  let st := Calm.start Calm.nusvr_conf in
  library_total (conf st) /\
  1 <= n_samples (conf st) /\
  exists pp pt cs,
    res (benchmark_influence st) = inr (pp, pt, cs) /\
    length pp = length (changing_param_values (conf st)) /\
    length pt = length (changing_param_values (conf st)) /\
    length cs = length (changing_param_values (conf st)).
Proof.
  intros st.
  assert (Hlib : library_total (conf st))
    by (repeat split; intros; intros ?; simpl; eauto).
  assert (Hn : 1 <= n_samples (conf st)) by (vm_compute; discriminate).
  split; [exact Hlib|]. split; [exact Hn|].
  exact (sweep_returns_on_a_total_library st Hlib Hn).
Defined.

Lemma main_loop_plots_aligned_witness :
  let o := main_loop (configurations Toy.imports) 0%nat Toy.clock_a 0%nat in
  res o = inr tt /\
  Forall2 drawn_for (configurations Toy.imports) (main_plots (final o)).
Proof.
  intros o.
  assert (Hres : res o = inr tt) by (vm_compute; reflexivity).
  split; [exact Hres|].
  exact (main_loop_plots_aligned (configurations Toy.imports) 0%nat Toy.clock_a 0%nat
           Hres).
Defined.

Lemma main_loop_stops_at_first_error_witness :
  let o := main_loop Toy.mixed_confs 0%nat Toy.clock_a 0%nat in
  let e := LibraryError "fit failed" in
  res o = inl e /\
  exists i c st,
    Toy.mixed_confs !! i = Some c /\ conf st = c /\
    res (benchmark_and_plot st) = inl e /\
    Forall2 drawn_for (take i Toy.mixed_confs) (main_plots (final o)) /\
    length (main_confs (final o)) = length Toy.mixed_confs /\
    drop (S i) (main_confs (final o)) = drop (S i) Toy.mixed_confs.
Proof.
  intros o e.
  assert (Hres : res o = inl e) by (vm_compute; reflexivity).
  split; [exact Hres|].
  exact (main_loop_stops_at_first_error Toy.mixed_confs 0%nat Toy.clock_a 0%nat e Hres).
Defined.

Lemma generate_data_unknown_case_witness :
  "clustering" <> "regression" /\ "clustering" <> "classification" /\
  @generate_data Toy.sklearn Toy.loaders "clustering" true 4%nat =
    (inl AttributeError, 4%nat).
Proof.
  assert (H1 : "clustering" <> "regression") by discriminate.
  assert (H2 : "clustering" <> "classification") by discriminate.
  split; [exact H1|]. split; [exact H2|].
  exact (@generate_data_unknown_case Toy.sklearn Toy.loaders "clustering" true 4%nat
           H1 H2).
Defined.

Lemma generate_data_splits_without_loss_witness :
  let d := {| X_train := [19; 18; 17; 16; 15; 14; 13; 12]; X_test := [11; 10];
              y_train := [9; 8; 7; 6; 5; 4; 3; 2]; y_test := [1; 0] |} in
  @generate_data Toy.sklearn Toy.loaders "regression" false 0%nat = (inr d, 6%nat) /\
  exists X y s2 Xtr Xte ytr yte,
    @shuffled_bunch Toy.sklearn Toy.loaders "regression" 0%nat X y s2 /\
    @converted Toy.sklearn Toy.loaders false Xtr Xte ytr yte s2 d 6%nat /\
    Xtr ++ Xte = X /\ ytr ++ yte = y /\
    (length y = length X ->
     length ytr = length Xtr /\ length yte = length Xte).
Proof.
  intros d.
  assert (Hrun : @generate_data Toy.sklearn Toy.loaders "regression" false 0%nat =
                 (inr d, 6%nat)) by (vm_compute; reflexivity).
  split; [exact Hrun|].
  exact (@generate_data_splits_without_loss Toy.sklearn Toy.loaders
           "regression" false 0%nat d 6%nat Hrun).
Defined.

Lemma generate_data_split_sizes_witness :
  let d := {| X_train := []; X_test := [7]; y_train := []; y_test := [1] |} in
  @generate_data Toy.sklearn Toy.loaders "classification" true 0%nat = (inr d, 6%nat) /\
  exists X y s2 Xtr Xte ytr yte,
    @shuffled_bunch Toy.sklearn Toy.loaders "classification" 0%nat X y s2 /\
    @converted Toy.sklearn Toy.loaders true Xtr Xte ytr yte s2 d 6%nat /\
    Z.of_nat (length Xtr) = Z.of_nat (length X) * 8 / 10 /\
    (length Xtr + length Xte = length X)%nat /\
    (X <> [] -> Xte <> []) /\
    (Xtr = [] <-> (length X <= 1)%nat).
Proof.
  intros d.
  assert (Hrun : @generate_data Toy.sklearn Toy.loaders "classification" true 0%nat =
                 (inr d, 6%nat)) by (vm_compute; reflexivity).
  split; [exact Hrun|].
  exact (@generate_data_split_sizes Toy.sklearn Toy.loaders
           "classification" true 0%nat d 6%nat Hrun).
Defined.


(** A forest that runs out of memory at seven trees: the first classifier
    stops there, the second is never reached. *)
Lemma tracker_exceptions_come_from_the_library_witness :
  let run := OOB.track (H := Brittle.forest) [] [] Brittle.ensemble_clfs 3 6 0%nat in
  let e := LibraryError "out of memory" in
  res run = inl e /\
  exists pre ev, emitted run = pre ++ [ev] /\ OOB.raised_by ev e.
Proof.
  intros run e.
  assert (Hres : res run = inl e) by (vm_compute; reflexivity).
  split; [exact Hres|].
  exact (OOBFacts.tracker_exceptions_come_from_the_library (H := Brittle.forest)
           [] [] Brittle.ensemble_clfs 3 6 0%nat e Hres).
Defined.

Lemma recorded_sizes_are_a_prefix_witness :
  let run := OOB.track (H := Brittle.forest) [] [] Brittle.ensemble_clfs 3 6 0%nat in
  let seq := [(3, (2 # 3)%Q); (4, (4 # 5)%Q); (5, (6 # 7)%Q)] in
  NoDup Brittle.ensemble_clfs.*1 /\
  OOB.od_get "sqrt" (OOB.error_rate (final run)) = Some seq /\
  exists n, seq.*1 = take n (seqZ 3 (6 - 3 + 1)).
Proof.
  intros run seq.
  assert (Hnd : NoDup Brittle.ensemble_clfs.*1).
  { apply (bool_decide_unpack _). vm_compute. exact I. }
  assert (Hget : OOB.od_get "sqrt" (OOB.error_rate (final run)) = Some seq)
    by (vm_compute; reflexivity).
  split; [exact Hnd|]. split; [exact Hget|].
  exact (OOBFacts.recorded_sizes_are_a_prefix (H := Brittle.forest)
           [] [] Brittle.ensemble_clfs 3 6 0%nat "sqrt" seq Hnd Hget).
Defined.

(** The label [forest] given to two classifiers: its sequence holds the
    range twice. *)
Lemma recorded_sizes_with_repeated_labels_witness :
  let run := OOB.track [] [] Toy.repeated_clfs 3 5 0%nat in
  let seq := default [] (OOB.od_get "forest" (OOB.error_rate (final run))) in
  res run = inr tt /\
  OOB.od_get "forest" (OOB.error_rate (final run)) = Some seq /\
  seq.*1 = concat (replicate (OOB.occurrences "forest" Toy.repeated_clfs)
                     (seqZ 3 (5 - 3 + 1))).
Proof.
  intros run seq.
  assert (Hres : res run = inr tt) by (vm_compute; reflexivity).
  assert (Hget : OOB.od_get "forest" (OOB.error_rate (final run)) = Some seq)
    by (vm_compute; reflexivity).
  split; [exact Hres|]. split; [exact Hget|].
  exact (OOBFacts.recorded_sizes_with_repeated_labels [] [] Toy.repeated_clfs 3 5 0%nat
           "forest" seq Hres Hget).
Defined.

Lemma tracker_then_plot_witness :
  let run := OOB.track [] [] Toy.ensemble_clfs OOB.min_estimators OOB.max_estimators
               0%nat in
  NoDup Toy.ensemble_clfs.*1 /\
  OOB.min_estimators <= OOB.max_estimators /\
  res run = inr tt /\
  exists fig,
    OOB.plot_cell (OOB.error_rate (final run)) = inr fig /\
    map OOB.tr_name (OOB.of_data fig) = Toy.ensemble_clfs.*1 /\
    Forall (fun t => OOB.tr_x t =
                       seqZ OOB.min_estimators
                         (OOB.max_estimators - OOB.min_estimators + 1) /\
                     length (OOB.tr_y t) = length (OOB.tr_x t)) (OOB.of_data fig).
Proof.
  intros run.
  assert (Hnd : NoDup Toy.ensemble_clfs.*1).
  { apply (bool_decide_unpack _). vm_compute. exact I. }
  assert (Hle : OOB.min_estimators <= OOB.max_estimators) by (vm_compute; discriminate).
  assert (Hres : res run = inr tt) by (vm_compute; reflexivity).
  split; [exact Hnd|]. split; [exact Hle|]. split; [exact Hres|].
  exact (OOBFacts.tracker_then_plot [] [] Toy.ensemble_clfs
           OOB.min_estimators OOB.max_estimators 0%nat Hnd Hle Hres).
Defined.

Lemma empty_range_breaks_the_plot_witness :
  5 < 6 /\
  Toy.ensemble_clfs <> [] /\
  OOB.track [] [] Toy.ensemble_clfs 6 5 0%nat =
    {| res := inr tt;
       final := {| OOB.error_rate := OOB.od_init Toy.ensemble_clfs; OOB.flib := 0%nat |};
       emitted := [] |} /\
  OOB.plot_cell (OOB.od_init Toy.ensemble_clfs) = inl OOB.ValueError.
Proof.
  assert (Hlt : 5 < 6) by lia.
  assert (Hne : Toy.ensemble_clfs <> []) by discriminate.
  split; [exact Hlt|]. split; [exact Hne|].
  exact (OOBFacts.empty_range_breaks_the_plot [] [] Toy.ensemble_clfs 6 5 0%nat Hlt Hne).
Defined.
